(** * The docling-processor service: post-processing transform

    A shallow embedding of [services/docling-processor/app.py] and of
    [services/docling-processor/processors/docling_processor.py], with the
    properties of the chunkers, of the heading-level assignment, of the
    metadata derivation and of the [/extract] handler.

    Conventions of the embedding.
    - A Python [str] is a list of characters ([list ascii]); a character is
      read as the code point of the same number (0..255).
    - A Python [int] is a [Z].
    - An attribute probed with [hasattr] is an [attr]: absent, raising when
      it is accessed, or present with a value.
    - A call that may raise returns an [exc]; code that mutates an
      accumulator inside [try] is written in the monad [M], whose state
      survives an exception, as the Python object does. *)

From Stdlib Require Import Ascii String.
From Stdlib Require Import List ZArith Lia Bool Arith.
Import ListNotations.

Set Implicit Arguments.

(** ** Python strings *)

Module Py.

Definition str := list ascii.

(** A string literal of the source. *)
Definition lit (s : string) : str := list_ascii_of_string s.

Definition ord (c : ascii) : N := N_of_ascii c.

(** [len(s)] *)
Definition len (s : str) : Z := Z.of_nat (length s).

(** Truth value of a string: [bool(s)]. *)
Definition truthy (s : str) : bool :=
  match s with [] => false | _ :: _ => true end.

(** [c.isspace()] on the code points below 256: the controls 9..13 and
    28..31, the space, NEL (133) and the no-break space (160). *)
Definition isspace (c : ascii) : bool :=
  let n := ord c in
  ((9 <=? n) && (n <=? 13) || (28 <=? n) && (n <=? 32)
   || (n =? 133) || (n =? 160))%N.

(** [c.lower()] on the code points below 256: A..Z and the accented capitals
    192..222 (the multiplication sign 215 apart) move up by 32. *)
Definition lower_char (c : ascii) : ascii :=
  let n := ord c in
  if ((65 <=? n) && (n <=? 90)
      || (192 <=? n) && (n <=? 222) && negb (n =? 215))%N
  then ascii_of_N (n + 32) else c.

(** [s.lower()] *)
Definition lower (s : str) : str := map lower_char s.

(** The capital of a small ASCII letter. *)
Definition upper_ascii (c : ascii) : ascii :=
  let n := ord c in
  if ((97 <=? n) && (n <=? 122))%N then ascii_of_N (n - 32) else c.

Fixpoint dropwhile (f : ascii -> bool) (s : str) : str :=
  match s with
  | [] => []
  | c :: s' => if f c then dropwhile f s' else s
  end.

(** [s.lstrip()], [s.rstrip()], [s.strip()] *)
Definition lstrip (s : str) : str := dropwhile isspace s.
Definition rstrip (s : str) : str := rev (dropwhile isspace (rev s)).
Definition strip (s : str) : str := rstrip (lstrip s).

(** [s.startswith(p)] *)
Fixpoint startswith (p s : str) : bool :=
  match p, s with
  | [], _ => true
  | _ :: _, [] => false
  | a :: p', b :: s' => Ascii.eqb a b && startswith p' s'
  end.

(** [a == b] *)
Fixpoint str_eqb (a b : str) : bool :=
  match a, b with
  | [], [] => true
  | x :: a', y :: b' => Ascii.eqb x y && str_eqb a' b'
  | _, _ => false
  end.

(** [s.endswith(p)] *)
Definition endswith (p s : str) : bool := startswith (rev p) (rev s).

(** [needle in hay] *)
Fixpoint contains (needle hay : str) : bool :=
  startswith needle hay ||
  match hay with
  | [] => false
  | _ :: hay' => contains needle hay'
  end.

(** [sep.join(xs)] *)
Fixpoint join (sep : str) (xs : list str) : str :=
  match xs with
  | [] => []
  | [x] => x
  | x :: xs' => x ++ sep ++ join sep xs'
  end.

(** [s.split(sep)] for a non-empty [sep] (Python raises ValueError on an
    empty one; every call of the source passes a literal): the string is
    scanned from the left, [cur] holds the piece read so far, in reverse, and
    [skip] counts the characters of a matched separator still to pass. *)
Fixpoint split_from (sep : str) (skip : nat) (cur : str) (s : str)
  : list str :=
  match s with
  | [] => [rev cur]
  | c :: s' =>
    match skip with
    | S k => split_from sep k cur s'
    | O =>
      if startswith sep s
      then rev cur :: split_from sep (length sep - 1) [] s'
      else split_from sep 0 (c :: cur) s'
    end
  end.

Definition split (sep s : str) : list str := split_from sep 0 [] s.

(** [s.split()]: the maximal runs of characters that are not white space. *)
Fixpoint words_from (cur : str) (s : str) : list str :=
  match s with
  | [] => match cur with [] => [] | _ => [rev cur] end
  | c :: s' =>
    if isspace c
    then match cur with
         | [] => words_from [] s'
         | _ => rev cur :: words_from [] s'
         end
    else words_from (c :: cur) s'
  end.

Definition split_ws (s : str) : list str := words_from [] s.

(** [str(n)] of an integer, as the f-strings print it. *)
Definition digit (n : nat) : ascii := ascii_of_nat (48 + n).

Fixpoint decimal_fuel (fuel n : nat) (acc : str) : str :=
  match fuel with
  | O => acc
  | S fuel' =>
    let acc' := digit (n mod 10) :: acc in
    if n / 10 =? 0 then acc' else decimal_fuel fuel' (n / 10) acc'
  end.

Definition str_of_nat (n : nat) : str := decimal_fuel (S n) n [].

Definition str_of_int (z : Z) : str :=
  if (z <? 0)%Z then lit "-" ++ str_of_nat (Z.to_nat (- z))
  else str_of_nat (Z.to_nat z).

(** [enumerate(xs)] *)
Definition enumerate (A : Type) (xs : list A) : list (Z * A) :=
  combine (map Z.of_nat (seq 0 (length xs))) xs.

(** The separators of the source. *)
Definition blank_line : str := lit (String "010" (String "010" EmptyString)).
Definition space : str := lit " ".

(** The sum of the lengths of a list of strings. *)
Definition total (xs : list str) : Z := fold_right (fun x n => (len x + n)%Z) 0%Z xs.

End Py.

Import Py.

(** ** Exceptions, attributes and the accumulator monad *)

(** An exception object: [message] is [str(e)]; [status_code] is set for an
    [HTTPException], which the web framework answers with that status. *)
Record exn := Exception { message : str; status_code : option Z }.

Definition HTTPException (status : Z) (detail : str) : exn :=
  {| message := detail; status_code := Some status |}.

Definition AttributeError : exn :=
  {| message := lit "AttributeError"; status_code := None |}.

(** The outcome of a call: a value, or an exception raised. *)
Inductive exc (A : Type) : Type :=
| Val (a : A)
| Raise (e : exn).
Arguments Val {A} a.
Arguments Raise {A} e.

Definition exc_bind (A B : Type) (m : exc A) (f : A -> exc B) : exc B :=
  match m with
  | Val a => f a
  | Raise e => Raise e
  end.

(** [try: body / except Exception as e: handler(e)] *)
Definition try_except (A : Type) (body : exc A) (handler : exn -> exc A)
  : exc A :=
  match body with
  | Val a => Val a
  | Raise e => handler e
  end.

(** [try: body / finally: cleanup]: the cleanup runs in every case and an
    exception of the cleanup replaces the outcome of the body. *)
Definition try_finally (A : Type) (body : exc A) (cleanup : exc unit) : exc A :=
  match cleanup with
  | Val _ => body
  | Raise e => Raise e
  end.

(** An attribute of a foreign object. *)
Inductive attr (A : Type) : Type :=
| Absent
| Faulty (e : exn)
| Present (a : A).
Arguments Absent {A}.
Arguments Faulty {A} e.
Arguments Present {A} a.

(** [hasattr(o, name)] returns [False] on AttributeError only. *)
Definition hasattr (A : Type) (x : attr A) : exc bool :=
  match x with
  | Absent => Val false
  | Faulty e => Raise e
  | Present _ => Val true
  end.

(** [o.name] *)
Definition getattr (A : Type) (x : attr A) : exc A :=
  match x with
  | Absent => Raise AttributeError
  | Faulty e => Raise e
  | Present a => Val a
  end.

(** A computation over a mutable accumulator of type [S]: the accumulator is
    returned also when an exception is raised. *)
Definition M (S A : Type) : Type := S -> S * exc A.

Definition ret (S A : Type) (a : A) : M S A := fun s => (s, Val a).

Definition bind (S A B : Type) (m : M S A) (f : A -> M S B) : M S B :=
  fun s =>
    match m s with
    | (s', Val a) => f a s'
    | (s', Raise e) => (s', Raise e)
    end.

Definition lift (S A : Type) (x : exc A) : M S A := fun s => (s, x).

Definition modify (S : Type) (f : S -> S) : M S unit := fun s => (f s, Val tt).

(** [for x in xs: body(x)] *)
Fixpoint for_each (S X : Type) (xs : list X) (body : X -> M S unit)
  : M S unit :=
  match xs with
  | [] => ret tt
  | x :: xs' => bind (body x) (fun _ => for_each xs' body)
  end.

(** [try: body / except Exception: pass], then the accumulator is read. *)
Definition run_swallow (S : Type) (body : M S unit) (s : S) : S :=
  fst (body s).

(** [m] keeps the invariant [P] of the accumulator, whether it returns or
    raises. *)
Definition keeps (S : Type) (P : S -> Prop) (A : Type) (m : M S A) : Prop :=
  forall s, P s -> P (fst (m s)).

Declare Scope monad_scope.
Delimit Scope monad_scope with monad.
Notation "x <- m ;; k" := (bind m (fun x => k))
  (at level 61, m at next level, right associativity) : monad_scope.
Notation "m ;; k" := (bind m (fun _ => k))
  (at level 61, right associativity) : monad_scope.
Notation "x <~ m ;; k" := (exc_bind m (fun x => k))
  (at level 61, m at next level, right associativity) : monad_scope.

(** ** Data model *)

(** A text item of the document: [label] is [None] when the attribute is
    missing or holds [None]; [page_no] likewise. *)
Record TextItem := {
  item_label : option str;
  item_text : str;
  item_page_no : option Z
}.

(** A table: the exporters are methods that may be missing or raise;
    [table_str] is [str(table)]. *)
Record Table := {
  export_to_markdown : attr (exc str);
  export_to_html : attr (exc str);
  table_str : str;
  table_page_no : option Z
}.

Inductive Picture : Type := APicture.
Inductive Page : Type := APage.

(** The document object of the converter. [markdown k] is the outcome of the
    call number [k] of [doc.export_to_markdown()]. *)
Record Document := {
  doc_texts : attr (list TextItem);
  doc_tables : attr (list Table);
  doc_pictures : attr (list Picture);
  doc_pages : attr (list Page);
  markdown : nat -> exc str
}.

(** The document after one call of its markdown exporter. *)
Definition exported (doc : Document) : Document :=
  {| doc_texts := doc_texts doc;
     doc_tables := doc_tables doc;
     doc_pictures := doc_pictures doc;
     doc_pages := doc_pages doc;
     markdown := fun k => markdown doc (S k) |}.

(** JSON values, for the bodies the handler returns. *)
#[warnings="-register-all"]
Inductive json : Type :=
| JNull
| JBool (b : bool)
| JInt (z : Z)
| JStr (s : str)
| JList (l : list json)
| JObj (fields : list (str * json)).

Definition json_of_option (A : Type) (f : A -> json) (o : option A) : json :=
  match o with
  | None => JNull
  | Some a => f a
  end.

(** ** [app.py] *)

Module App.

Local Open Scope monad_scope.
Local Open Scope Z_scope.

(** An entry of [structure["sections"]]. *)
Record Section_ := {
  level : Z;
  section_text : str;
  section_type : str
}.

(** An entry of [structure["tables"]]. *)
Record TableEntry := {
  index : Z;
  table_content : str;
  description : str
}.

(** The dictionary built by [extract_document_structure]. *)
Record Structure := {
  title : option str;
  sections : list Section_;
  tables : list TableEntry;
  key_elements : list str
}.

(** A chunk dictionary [{"text", "size", "type"}]. *)
Record Chunk := {
  text : str;
  size : Z;
  type : str
}.

Definition get_heading_level (label : str) : Z :=
  let label_lower := lower label in
  if contains (lit "title") label_lower then 1
  else if contains (lit "h1") label_lower then 1
  else if contains (lit "h2") label_lower then 2
  else if contains (lit "h3") label_lower then 3
  else if contains (lit "h4") label_lower then 4
  else 2.

(** [structure["sections"].append(entry)] and [structure["tables"].append(entry)] *)
Definition append_section (entry : Section_) (structure : Structure) : Structure :=
  {| title := title structure;
     sections := sections structure ++ [entry];
     tables := tables structure;
     key_elements := key_elements structure |}.

Definition append_table (entry : TableEntry) (structure : Structure) : Structure :=
  {| title := title structure;
     sections := sections structure;
     tables := tables structure ++ [entry];
     key_elements := key_elements structure |}.

(** The body of the first loop of [extract_document_structure]. *)
Definition heading_step (text_item : TextItem) : M Structure unit :=
  match item_label text_item with
  | Some label =>
    if truthy label then
      if contains (lit "title") (lower label)
         || contains (lit "heading") (lower label)
      then
        let level := get_heading_level label in
        modify (append_section
                  {| level := level;
                     section_text := strip (item_text text_item);
                     section_type := label |})
      else ret tt
    else ret tt
  | None => ret tt
  end.

(** The body of the second loop of [extract_document_structure]. *)
Definition table_step (it : Z * Table) : M Structure unit :=
  let (i, table) := it in
  has <- lift (hasattr (export_to_markdown table)) ;;
  table_content <-
    (if has : bool
     then export <- lift (getattr (export_to_markdown table)) ;; lift export
     else ret (table_str table)) ;;
  modify (append_table
            {| index := i;
               table_content := table_content;
               description :=
                 lit "Table " ++ str_of_int (i + 1) ++ lit " from document" |}).

Definition structure_body (doc : Document) : M Structure unit :=
  has_texts <- lift (hasattr (doc_texts doc)) ;;
  (if has_texts : bool
   then texts <- lift (getattr (doc_texts doc)) ;; for_each texts heading_step
   else ret tt) ;;
  has_tables <- lift (hasattr (doc_tables doc)) ;;
  (if has_tables : bool
   then tbls <- lift (getattr (doc_tables doc)) ;;
        for_each (enumerate tbls) table_step
   else ret tt).

Definition extract_document_structure (doc : Document) : Structure :=
  let structure :=
    {| title := None; sections := []; tables := []; key_elements := [] |} in
  run_swallow (structure_body doc) structure.

(** The state of the paragraph loop of [create_llm_chunks]. *)
Record ParagraphState := {
  chunks : list Chunk;
  current_chunk : list str;
  current_size : Z
}.

Definition paragraph_group (current_chunk : list str) (current_size : Z)
  : Chunk :=
  {| text := join blank_line current_chunk;
     size := current_size;
     type := lit "paragraph_group" |}.

Definition nonempty (A : Type) (l : list A) : bool :=
  match l with [] => false | _ :: _ => true end.

(** One turn of [for paragraph in paragraphs]. *)
Definition paragraph_step (max_chunk_size : Z) (st : ParagraphState)
  (paragraph : str) : ParagraphState :=
  let paragraph := strip paragraph in
  if negb (truthy paragraph) then st
  else
    let st :=
      if (current_size st + len paragraph >? max_chunk_size)
         && nonempty (current_chunk st)
      then {| chunks := chunks st
                        ++ [paragraph_group (current_chunk st) (current_size st)];
              current_chunk := [];
              current_size := 0 |}
      else st in
    {| chunks := chunks st;
       current_chunk := current_chunk st ++ [paragraph];
       current_size := current_size st + len paragraph |}.

(** The [try] block of [create_llm_chunks], on the markdown text. *)
Definition paragraph_chunks (max_chunk_size : Z) (full_text : str)
  : list Chunk :=
  let paragraphs := split blank_line full_text in
  let st :=
    fold_left (paragraph_step max_chunk_size) paragraphs
      {| chunks := []; current_chunk := []; current_size := 0 |} in
  if nonempty (current_chunk st)
  then chunks st ++ [paragraph_group (current_chunk st) (current_size st)]
  else chunks st.

Definition word_split (chunk_words : list str) : Chunk :=
  {| text := join space chunk_words;
     size := len (join space chunk_words);
     type := lit "word_split" |}.

(** One turn of [for word in words] of the fallback: the state is the list
    of chunks and [chunk_words]. *)
Definition word_step (max_chunk_size : Z) (st : list Chunk * list str)
  (word : str) : list Chunk * list str :=
  let (chunks, chunk_words) := st in
  let chunk_words := chunk_words ++ [word] in
  if len (join space chunk_words) >? max_chunk_size
  then (chunks ++ [word_split (removelast chunk_words)], [word])
  else (chunks, chunk_words).

(** The fallback of [create_llm_chunks], on the markdown text. *)
Definition word_chunks (max_chunk_size : Z) (full_text : str) : list Chunk :=
  let words := split_ws full_text in
  let (chunks, chunk_words) :=
    fold_left (word_step max_chunk_size) words ([], []) in
  if nonempty chunk_words
  then chunks ++ [word_split chunk_words]
  else chunks.

Definition error_chunk : Chunk :=
  {| text := lit "Error creating chunks"; size := 0; type := lit "error" |}.

(** [create_llm_chunks(doc, max_chunk_size)]: the paragraph path uses the
    first call of the exporter; when that raises, the fallback calls the
    exporter again. *)
Definition create_llm_chunks (doc : Document) (max_chunk_size : Z)
  : list Chunk :=
  match markdown doc 0 with
  | Val full_text => paragraph_chunks max_chunk_size full_text
  | Raise _ =>
    match markdown doc 1 with
    | Val full_text => word_chunks max_chunk_size full_text
    | Raise _ => [error_chunk]
    end
  end.

(** The default of the signature. *)
Definition default_max_chunk_size : Z := 2000.

Definition get_page_count (doc : Document) : exc Z :=
  try_except
    (has <~ hasattr (doc_pages doc) ;;
     if has : bool
     then pages <~ getattr (doc_pages doc) ;; Val (Z.of_nat (length pages))
     else Val 1)
    (fun _ => Val 1).

Definition has_tables (doc : Document) : exc bool :=
  try_except
    (has <~ hasattr (doc_tables doc) ;;
     if has : bool
     then tbls <~ getattr (doc_tables doc) ;; Val (Z.of_nat (length tbls) >? 0)
     else Val false)
    (fun _ => Val false).

Definition has_images (doc : Document) : exc bool :=
  try_except
    (has <~ hasattr (doc_pictures doc) ;;
     if has : bool
     then pics <~ getattr (doc_pictures doc) ;; Val (Z.of_nat (length pics) >? 0)
     else Val false)
    (fun _ => Val false).

(** *** The [/extract] endpoint *)

(** The uploaded file: its name and the outcome of [await file.read()]. *)
Record UploadFile := {
  filename : str;
  read : exc str
}.

(** The collaborators of one request: [write_temp] creates the temporary
    file, writes the bytes and gives its path; [convert] is
    [converter.convert(path).document]; [post] is the callback POST, giving
    the status code of the answer; [unlink] is the cleanup of the [finally]
    block. *)
Record World := {
  write_temp : str -> exc str;
  convert : str -> exc Document;
  post : str -> json -> exc Z;
  unlink : str -> exc unit
}.

Definition verify_api_key (API_KEY : str) (credentials : str) : exc str :=
  if negb (str_eqb credentials API_KEY)
  then Raise (HTTPException 401 (lit "Invalid API key"))
  else Val credentials.

Definition json_of_section (s : Section_) : json :=
  JObj [(lit "level", JInt (level s));
        (lit "text", JStr (section_text s));
        (lit "type", JStr (section_type s))].

Definition json_of_table (t : TableEntry) : json :=
  JObj [(lit "index", JInt (index t));
        (lit "content", JStr (table_content t));
        (lit "description", JStr (description t))].

Definition json_of_structure (s : Structure) : json :=
  JObj [(lit "title", json_of_option JStr (title s));
        (lit "sections", JList (map json_of_section (sections s)));
        (lit "tables", JList (map json_of_table (tables s)));
        (lit "key_elements", JList (map JStr (key_elements s)))].

Definition json_of_chunk (c : Chunk) : json :=
  JObj [(lit "text", JStr (text c));
        (lit "size", JInt (size c));
        (lit "type", JStr (type c))].

(** [extraction_result["content"]]: the markdown is exported first, so the
    chunker sees the document after one call of the exporter. *)
Definition extraction_content (doc : Document) : exc (str * json) :=
  md <~ markdown doc 0 ;;
  let structure := extract_document_structure doc in
  let text_chunks := create_llm_chunks (exported doc) default_max_chunk_size in
  page_count <~ get_page_count doc ;;
  tables_flag <~ has_tables doc ;;
  images_flag <~ has_images doc ;;
  Val (md,
       JObj [(lit "markdown", JStr md);
             (lit "structure", json_of_structure structure);
             (lit "text_chunks", JList (map json_of_chunk text_chunks));
             (lit "metadata",
              JObj [(lit "page_count", JInt page_count);
                    (lit "has_tables", JBool tables_flag);
                    (lit "has_images", JBool images_flag);
                    (lit "processing_method", JStr (lit "docling"))])]).

Definition extraction_result (name : str) (content : json) : json :=
  JObj [(lit "filename", JStr name);
        (lit "success", JBool true);
        (lit "content", content)].

Definition callback_payload (resource_id md : str) (content : json) : json :=
  JObj [(lit "resource_id", JStr resource_id);
        (lit "success", JBool true);
        (lit "extraction_method", JStr (lit "docling"));
        (lit "content", JStr md);
        (lit "structured_data", content);
        (lit "characters_extracted", JInt (len md))].

Definition callback_ack (resource_id : str) : json :=
  JObj [(lit "success", JBool true);
        (lit "message", JStr (lit "Results sent to callback URL"));
        (lit "resource_id", JStr resource_id)].

(** The dictionary returned by the outer [except Exception as e]. *)
Definition failure_body (name : str) (e : exn) : json :=
  JObj [(lit "filename", JStr name);
        (lit "success", JBool false);
        (lit "error", JStr (message e));
        (lit "content", JNull)].

(** [if callback_url and resource_id]: both given and not empty. *)
Definition callback_target (callback_url resource_id : option str)
  : option (str * str) :=
  match callback_url, resource_id with
  | Some url, Some rid =>
    if truthy url && truthy rid then Some (url, rid) else None
  | _, _ => None
  end.

(** Lines 70 to 133: conversion and transform, with the cleanup. *)
Definition convert_and_transform (file : UploadFile)
  (callback_url resource_id : option str) (w : World) (temp_path : str)
  : exc json :=
  try_finally
    (doc <~ convert w temp_path ;;
     mc <~ extraction_content doc ;;
     let (md, content) := mc : str * json in
     let result := extraction_result (filename file) content in
     match callback_target callback_url resource_id with
     | Some (url, rid) =>
       try_except
         (_ <~ post w url (callback_payload rid md content) ;;
          Val (callback_ack rid))
         (fun _ => Val result)
     | None => Val result
     end)
    (unlink w temp_path).

(** The handler: the value returned is sent with status 200; an exception
    that leaves it is answered by the framework. *)
Definition extract_document (file : UploadFile) (api_key : str)
  (callback_url resource_id : option str) (w : World) : exc json :=
  if negb (endswith (lit ".pdf") (lower (filename file)))
  then Raise (HTTPException 400 (lit "Only PDF files are supported"))
  else
    try_except
      (file_content <~ read file ;;
       temp_path <~ write_temp w file_content ;;
       convert_and_transform file callback_url resource_id w temp_path)
      (fun e => Val (failure_body (filename file) e)).

(** The route with its dependency [Depends(verify_api_key)]. *)
Definition extract_endpoint (API_KEY credentials : str) (file : UploadFile)
  (callback_url resource_id : option str) (w : World) : exc json :=
  api_key <~ verify_api_key API_KEY credentials ;;
  extract_document file api_key callback_url resource_id w.

(** The status code of the answer: 200 for a returned body, the code of an
    [HTTPException], 500 for another exception. *)
Definition http_status (r : exc json) : Z :=
  match r with
  | Val _ => 200
  | Raise e =>
    match status_code e with
    | Some code => code
    | None => 500
    end
  end.

End App.

(** ** [processors/docling_processor.py] *)

Module DoclingProcessor.

Local Open Scope monad_scope.
Local Open Scope Z_scope.

(** [models.document_models.DocumentChunk] *)
Record DocumentChunk := {
  id : str;
  content : str;
  metadata : list (str * json);
  page_number : option Z;
  chunk_type : option str
}.

Definition _get_header_level (label : str) : Z :=
  if contains (lit "h1") (lower label) || contains (lit "title") (lower label)
  then 1
  else if contains (lit "h2") (lower label) then 2
  else if contains (lit "h3") (lower label) then 3
  else if contains (lit "h4") (lower label) then 4
  else 1.

(** Truth value of an [Optional[int]]: [None] and [0] are false. *)
Definition truthy_page (p : option Z) : bool :=
  match p with
  | Some z => negb (z =? 0)
  | None => false
  end.

(** [a == b] on [Optional[int]] *)
Definition page_eqb (a b : option Z) : bool :=
  match a, b with
  | Some x, Some y => x =? y
  | None, None => true
  | _, _ => false
  end.

Definition text_chunk (document_id : str) (chunk_id : Z)
  (current_chunk : list str) (current_page : option Z) : DocumentChunk :=
  {| id := document_id ++ lit "_chunk_" ++ str_of_int chunk_id;
     content := join space current_chunk;
     metadata := [(lit "page_number", json_of_option JInt current_page);
                  (lit "chunk_index", JInt chunk_id);
                  (lit "chunk_type", JStr (lit "text"))];
     page_number := current_page;
     chunk_type := Some (lit "text") |}.

(** The state of the loop over [doc.texts]. *)
Record TextState := {
  chunks : list DocumentChunk;
  chunk_id : Z;
  current_chunk : list str;
  current_page : option Z
}.

(** One turn of [for text_item in doc.texts]. *)
Definition text_step (document_id : str) (st : TextState)
  (text_item : TextItem) : TextState :=
  let text := strip (item_text text_item) in
  if negb (truthy text) then st
  else
    let page_no := item_page_no text_item in
    let st :=
      if (truthy_page (current_page st)
          && negb (page_eqb page_no (current_page st)))
         || (len (join space (current_chunk st)) >? 1000)
      then
        if App.nonempty (current_chunk st)
        then {| chunks := chunks st
                          ++ [text_chunk document_id (chunk_id st)
                                (current_chunk st) (current_page st)];
                chunk_id := chunk_id st + 1;
                current_chunk := [];
                current_page := current_page st |}
        else st
      else st in
    {| chunks := chunks st;
       chunk_id := chunk_id st;
       current_chunk := current_chunk st ++ [text];
       current_page := page_no |}.

(** The block under [if hasattr(doc, 'texts')], on the chunks so far. *)
Definition text_chunks (document_id : str) (texts : list TextItem)
  (chunks0 : list DocumentChunk) : list DocumentChunk :=
  let st :=
    fold_left (text_step document_id) texts
      {| chunks := chunks0; chunk_id := 0; current_chunk := [];
         current_page := None |} in
  if App.nonempty (current_chunk st)
  then chunks st ++ [text_chunk document_id (chunk_id st)
                       (current_chunk st) (current_page st)]
  else chunks st.

Definition table_chunk (document_id : str) (i : Z) (html : str)
  (page_no : option Z) : DocumentChunk :=
  {| id := document_id ++ lit "_table_" ++ str_of_int i;
     content := html;
     metadata := [(lit "page_number", json_of_option JInt page_no);
                  (lit "table_index", JInt i);
                  (lit "chunk_type", JStr (lit "table"))];
     page_number := page_no;
     chunk_type := Some (lit "table") |}.

(** One turn of [for i, table in enumerate(doc.tables)]. *)
Definition table_step (document_id : str) (it : Z * Table)
  : M (list DocumentChunk) unit :=
  let (i, table) := it in
  has <- lift (hasattr (export_to_html table)) ;;
  html <-
    (if has : bool
     then export <- lift (getattr (export_to_html table)) ;; lift export
     else ret (table_str table)) ;;
  modify (fun chunks =>
            chunks ++ [table_chunk document_id i html (table_page_no table)]).

Definition create_chunks_body (doc : Document) (document_id : str)
  : M (list DocumentChunk) unit :=
  has_texts <- lift (hasattr (doc_texts doc)) ;;
  (if has_texts : bool
   then texts <- lift (getattr (doc_texts doc)) ;;
        modify (text_chunks document_id texts)
   else ret tt) ;;
  has_tables <- lift (hasattr (doc_tables doc)) ;;
  (if has_tables : bool
   then tbls <- lift (getattr (doc_tables doc)) ;;
        for_each (enumerate tbls) (table_step document_id)
   else ret tt).

Definition _create_chunks (doc : Document) (document_id : str)
  : list DocumentChunk :=
  run_swallow (create_chunks_body doc document_id) [].

End DoclingProcessor.

(** ** Vocabulary of the properties *)

Module Props.

Import App.

(** [w] spells [pat], a word of small ASCII letters, in some letter case. *)
Definition any_case (w pat : str) : Prop :=
  Forall2 (fun c p => c = p \/ c = upper_ascii p) w pat.

(** The outline has no title. *)
Definition untitled (s : Structure) : Prop := title s = None.

(** The trimmed, non-empty paragraphs of a markdown text, in order. *)
Definition paragraphs (full_text : str) : list str :=
  filter truthy (map strip (split blank_line full_text)).

(** A paragraph as the chunker stores it: not empty, without a blank line
    inside, and not ending in white space. *)
Definition clean (p : str) : Prop :=
  p <> []
  /\ contains blank_line p = false
  /\ forall a c, p = a ++ [c] -> isspace c = false.

(** The chunk made of a group of paragraphs. *)
Definition chunk_of (g : list str) : Chunk := paragraph_group g (total g).

(** A group of paragraphs within the size, or a paragraph on its own. *)
Definition group_ok (max_chunk_size : Z) (g : list str) : Prop :=
  g <> [] /\ ((total g <= max_chunk_size)%Z \/ exists p, g = [p]).

(** The running chunk of the paragraph loop agrees with its size and is
    within the size or holds one paragraph at most. *)
Definition running_ok (max_chunk_size : Z) (st : ParagraphState) : Prop :=
  current_size st = total (current_chunk st)
  /\ ((total (current_chunk st) <= max_chunk_size)%Z
      \/ (length (current_chunk st) <= 1)%nat).

(** A chunk of the word fallback: its size is the length of its text, and
    it is within the size or a single word of the text. *)
Definition word_chunk_ok (max_chunk_size : Z) (words : list str) (c : Chunk)
  : Prop :=
  size c = len (text c)
  /\ ((size c <= max_chunk_size)%Z \/ In (text c) words).

Definition words_running_ok (max_chunk_size : Z) (words : list str)
  (chunk_words : list str) : Prop :=
  (len (join space chunk_words) <= max_chunk_size)%Z
  \/ exists w, chunk_words = [w] /\ In w words.

(** Two paragraphs, the first of 2001 characters. *)
Definition two_paragraphs : str :=
  repeat "x"%char 2001 ++ blank_line ++ lit "tail".

(** A text of 2001 characters without a blank line. *)
Definition long_paragraph : str := repeat "x"%char 2001.

(** The paragraphs a chunk text is made of. *)
Definition constituents (c : Chunk) : list str := split blank_line (text c).

(** What the HTML export of a table gives when it does not raise: the
    rendering of the table when the exporter is missing. *)
Definition exports_html (table : Table) : option str :=
  match export_to_html table with
  | Absent => Some (table_str table)
  | Present (Val html) => Some html
  | _ => None
  end.

Definition html_of (table : Table) : str :=
  match exports_html table with
  | Some html => html
  | None => []
  end.

Definition table_chunk_of (document_id : str) (it : Z * Table)
  : DoclingProcessor.DocumentChunk :=
  DoclingProcessor.table_chunk document_id (fst it) (html_of (snd it))
    (table_page_no (snd it)).

(** An upload [report.PDF] and collaborators whose converter raises. *)
Definition pdf_upload : UploadFile :=
  {| filename := lit "report.PDF"; read := Val (lit "%PDF-1.7") |}.

Definition corrupt_pdf : exn :=
  {| message := lit "not a valid PDF"; status_code := None |}.

Definition failing_converter : World :=
  {| write_temp := fun _ => Val (lit "/tmp/tmpq1.pdf");
     convert := fun _ => Raise corrupt_pdf;
     post := fun _ _ => Val 200%Z;
     unlink := fun _ => Val tt |}.

(** The text items the page-aware chunker keeps, and their trimmed text. *)
Definition stripped (text_item : TextItem) : str :=
  strip (item_text text_item).

Definition kept (text_item : TextItem) : bool := truthy (stripped text_item).

Definition no_item : TextItem :=
  {| item_label := None; item_text := []; item_page_no := None |}.

(** The text chunk number [k] made of a group of items: it carries the page
    of the last item of the group. *)
Definition group_chunk (document_id : str) (k : Z) (g : list TextItem)
  : DoclingProcessor.DocumentChunk :=
  DoclingProcessor.text_chunk document_id k (map stripped g)
    (item_page_no (last g no_item)).

Fixpoint group_chunks (document_id : str) (k : Z) (gs : list (list TextItem))
  : list DoclingProcessor.DocumentChunk :=
  match gs with
  | [] => []
  | g :: gs' => group_chunk document_id k g :: group_chunks document_id (k + 1) gs'
  end.

(** All the items of a group are on the page of its first item. *)
Definition same_page (g : list TextItem) : Prop :=
  forall text_item,
    In text_item g -> item_page_no text_item = item_page_no (hd no_item g).

(** The item has a page number that counts as true: not [None], not 0. *)
Definition paged (text_item : TextItem) : Prop :=
  DoclingProcessor.truthy_page (item_page_no text_item) = true.

(** The running chunk of the text loop holds the items [cur]. *)
Definition running (st : DoclingProcessor.TextState) (cur : list TextItem)
  : Prop :=
  DoclingProcessor.current_chunk st = map stripped cur
  /\ (cur <> [] ->
      DoclingProcessor.current_page st = item_page_no (last cur no_item)).

(** A document whose page collection is present and empty. *)
Definition no_page_doc : Document :=
  {| doc_texts := Absent; doc_tables := Absent; doc_pictures := Absent;
     doc_pages := Present [];
     markdown := fun _ => Val [] |}.

(** A document with the given text items and nothing else. *)
Definition texts_doc (items : list TextItem) : Document :=
  {| doc_texts := Present items; doc_tables := Absent;
     doc_pictures := Absent; doc_pages := Absent;
     markdown := fun _ => Val [] |}.

Definition item (page_no : option Z) (s : string) : TextItem :=
  {| item_label := None; item_text := lit s; item_page_no := page_no |}.

(** A document whose markdown export is always [md]. *)
Definition markdown_doc (md : str) : Document :=
  {| doc_texts := Absent; doc_tables := Absent; doc_pictures := Absent;
     doc_pages := Absent;
     markdown := fun _ => Val md |}.

(** An exception [e] leaves the processing of the upload (lines 60 to 133 of
    the handler): it is raised by the read, by the temporary file, by the
    conversion or by the markdown export while the cleanup completes, or by
    the cleanup itself. *)
Inductive processing_raises (file : UploadFile) (w : World) (e : exn) : Prop :=
| raises_read :
    read file = Raise e -> processing_raises file w e
| raises_write_temp bytes :
    read file = Val bytes -> write_temp w bytes = Raise e ->
    processing_raises file w e
| raises_convert bytes path :
    read file = Val bytes -> write_temp w bytes = Val path ->
    convert w path = Raise e -> unlink w path = Val tt ->
    processing_raises file w e
| raises_transform bytes path doc :
    read file = Val bytes -> write_temp w bytes = Val path ->
    convert w path = Val doc -> markdown doc 0 = Raise e ->
    unlink w path = Val tt ->
    processing_raises file w e
| raises_cleanup bytes path :
    read file = Val bytes -> write_temp w bytes = Val path ->
    unlink w path = Raise e ->
    processing_raises file w e.

End Props.

Import Props.

(** ** Vocabulary for the properties of the rest of the code *)

Module Cover.

Import App.

(** The label of an item, empty when it has none. *)
Definition label_of (text_item : TextItem) : str :=
  match item_label text_item with
  | Some label => label
  | None => []
  end.

(** The item is a heading of the outline: it has a label that, in lower
    case, contains "title" or "heading". *)
Definition is_heading (text_item : TextItem) : bool :=
  truthy (label_of text_item)
  && (contains (lit "title") (lower (label_of text_item))
      || contains (lit "heading") (lower (label_of text_item))).

(** The entry of the outline for a heading. *)
Definition section_of (text_item : TextItem) : Section_ :=
  {| level := get_heading_level (label_of text_item);
     section_text := strip (item_text text_item);
     section_type := label_of text_item |}.

(** What the markdown export of a table gives when it does not raise: the
    rendering of the table when the exporter is missing. *)
Definition exports_markdown (table : Table) : option str :=
  match export_to_markdown table with
  | Absent => Some (table_str table)
  | Present (Val md) => Some md
  | _ => None
  end.

Definition table_entry (i : Z) (md : str) : TableEntry :=
  {| index := i;
     table_content := md;
     description := lit "Table " ++ str_of_int (i + 1) ++ lit " from document" |}.

(** The entries of the tables in front of the first one whose export
    raises, numbered from [i]. *)
Fixpoint table_entries (i : Z) (tbls : list Table) : list TableEntry :=
  match tbls with
  | [] => []
  | table :: tbls' =>
    match exports_markdown table with
    | Some md => table_entry i md :: table_entries (i + 1) tbls'
    | None => []
    end
  end.

(** The sum of the recorded sizes of a list of chunks. *)
Definition sizes_sum (cs : list Chunk) : Z :=
  fold_right (fun c n => (size c + n)%Z) 0%Z cs.

(** Groups of paragraphs cut greedily: a group is closed only in front of a
    paragraph that no longer fits. *)
Fixpoint greedy (max_chunk_size : Z) (gs : list (list str)) : Prop :=
  match gs with
  | [] => True
  | g1 :: rest =>
    match rest with
    | [] => True
    | g2 :: _ => (total g1 + len (hd [] g2) > max_chunk_size)%Z
    end
    /\ greedy max_chunk_size rest
  end.

(** The type of the chunks of each path of [create_llm_chunks]. *)
Definition path_type (doc : Document) : str :=
  match markdown doc 0, markdown doc 1 with
  | Val _, _ => lit "paragraph_group"
  | Raise _, Val _ => lit "word_split"
  | Raise _, Raise _ => lit "error"
  end.

(** A document whose first markdown export raises and whose second gives
    [md]. *)
Definition flaky_doc (md : str) : Document :=
  {| doc_texts := Absent; doc_tables := Absent; doc_pictures := Absent;
     doc_pages := Absent;
     markdown := fun k => match k with
                          | O => Raise AttributeError
                          | S _ => Val md
                          end |}.

(** All the items of a group but the last fit, joined, in 1000
    characters. *)
Definition bounded_group (g : list TextItem) : Prop :=
  (len (join space (map stripped (removelast g))) <= 1000)%Z.

(** Collaborators whose converter raises and whose cleanup raises too. *)
Definition cleanup_error : exn :=
  {| message := lit "unlink failed"; status_code := None |}.

Definition double_fault : World :=
  {| write_temp := fun _ => Val (lit "/tmp/tmpq1.pdf");
     convert := fun _ => Raise corrupt_pdf;
     post := fun _ _ => Val 200%Z;
     unlink := fun _ => Raise cleanup_error |}.

(** The identifier and the index of the text chunk number [k]. *)
Definition numbered (document_id : str) (kc : nat * DoclingProcessor.DocumentChunk)
  : Prop :=
  DoclingProcessor.id (snd kc)
  = document_id ++ lit "_chunk_" ++ str_of_int (Z.of_nat (fst kc))
  /\ In (lit "chunk_index", JInt (Z.of_nat (fst kc)))
        (DoclingProcessor.metadata (snd kc)).

(** The table chunk number [k] of a document, made from the table [t]. *)
Definition table_numbered (document_id : str)
  (ktc : nat * (Table * DoclingProcessor.DocumentChunk)) : Prop :=
  let (k, tc) := ktc in
  let (t, c) := tc in
  DoclingProcessor.id c
  = document_id ++ lit "_table_" ++ str_of_int (Z.of_nat k)
  /\ DoclingProcessor.content c = html_of t
  /\ DoclingProcessor.page_number c = table_page_no t
  /\ DoclingProcessor.chunk_type c = Some (lit "table").

(** A document with headings and tables, for the examples. *)
Definition heading_item (label body : string) : TextItem :=
  {| item_label := Some (lit label); item_text := lit body;
     item_page_no := None |}.

Definition plain_table (md : string) : Table :=
  {| export_to_markdown := Present (Val (lit md));
     export_to_html := Present (Val (lit md));
     table_str := lit "table";
     table_page_no := None |}.

Definition broken_table : Table :=
  {| export_to_markdown := Present (Raise AttributeError);
     export_to_html := Present (Raise AttributeError);
     table_str := lit "table";
     table_page_no := Some 7%Z |}.

Definition report_doc : Document :=
  {| doc_texts := Present [heading_item "section_heading-h3" " Scope ";
                           heading_item "paragraph" "Body text";
                           heading_item "TITLE" "Report"];
     doc_tables := Present [plain_table "|a|"; broken_table; plain_table "|b|"];
     doc_pictures := Absent;
     doc_pages := Absent;
     markdown := fun _ => Val (lit "Report") |}.

End Cover.

Import Cover.

Unset Implicit Arguments.

(** ** Checks of the string primitives *)

Example strip_ex : strip (lit "  a b  ") = lit "a b".
Proof. reflexivity. Qed.

Example split_ex :
  split blank_line (blank_line ++ lit "a" ++ blank_line ++ lit "b" ++ blank_line)
  = [[]; lit "a"; lit "b"; []].
Proof. reflexivity. Qed.

Example split_ws_ex : split_ws (lit " ab  c ") = [lit "ab"; lit "c"].
Proof. reflexivity. Qed.

Example str_of_int_ex :
  str_of_int 0 = lit "0" /\ str_of_int 1203 = lit "1203"
  /\ str_of_int (-45) = lit "-45".
Proof. repeat split; reflexivity. Qed.

Example lower_ex : lower (lit "Heading-H2 TITLE") = lit "heading-h2 title".
Proof. reflexivity. Qed.

(** ** Strings: prefixes and occurrences *)

Section StringFacts.

Lemma startswith_app (p s : str) : startswith p (p ++ s) = true.
Proof.
  induction p as [|a p IH]; simpl; [reflexivity|].
  now rewrite Ascii.eqb_refl, IH.
Qed.

Lemma startswith_spec (p s : str) :
  startswith p s = true <-> exists r, s = p ++ r.
Proof.
  split.
  - revert s; induction p as [|a p IH]; intros s H.
    + now exists s.
    + destruct s as [|b s]; simpl in H; [discriminate|].
      apply andb_true_iff in H as [Hab Hps].
      apply Ascii.eqb_eq in Hab; subst b.
      destruct (IH _ Hps) as [r ->]. now exists r.
  - intros [r ->]. apply startswith_app.
Qed.

Lemma contains_here (n h : str) :
  startswith n h = true -> contains n h = true.
Proof. intros H. destruct h; simpl in *; now rewrite H. Qed.

Lemma contains_spec (n h : str) :
  contains n h = true <-> exists a b, h = a ++ n ++ b.
Proof.
  split.
  - induction h as [|c h IH]; simpl; intros H.
    + rewrite orb_false_r in H. apply startswith_spec in H as [r Hr].
      exists [], r. exact Hr.
    + apply orb_true_iff in H as [H|H].
      * apply startswith_spec in H as [r Hr]. exists [], r. exact Hr.
      * destruct (IH H) as (a & b & ->). now exists (c :: a), b.
  - intros (a & b & ->). induction a as [|c a IH]; simpl.
    + apply contains_here, startswith_app.
    + rewrite IH. apply orb_true_r.
Qed.

Lemma lower_app (a b : str) : lower (a ++ b) = lower a ++ lower b.
Proof. apply map_app. Qed.

Lemma any_case_lower (w : str) (pat : string) :
  lower (lit pat) = lit pat ->
  lower (map upper_ascii (lit pat)) = lit pat ->
  any_case w (lit pat) -> lower w = lit pat.
Proof.
  unfold any_case. generalize (lit pat) as p. intros p Hl Hu H.
  induction H as [|c q w p [->| ->] _ IH]; [reflexivity| |];
    simpl in *; injection Hl as Hl1 Hl2; injection Hu as Hu1 Hu2;
    rewrite (IH Hl2 Hu2); congruence.
Qed.

End StringFacts.

(** ** Heading levels *)

Section HeadingLevel.

Import App DoclingProcessor.

Lemma title_in_lower (pre w post : str) :
  any_case w (lit "title") ->
  contains (lit "title") (lower (pre ++ w ++ post)) = true.
Proof.
  intros H. rewrite !lower_app, (any_case_lower w "title"); auto.
  apply contains_spec. now exists (lower pre), (lower post).
Qed.

(** C9. A label that contains "title" in any letter case has level 1, whatever
    else it contains; this holds for [get_heading_level] and for the
    processor's [_get_header_level]. *)
Theorem title_label_has_level_1 (pre w post : str) :
  any_case w (lit "title") ->
  get_heading_level (pre ++ w ++ post) = 1%Z
  /\ _get_header_level (pre ++ w ++ post) = 1%Z.
Proof.
  intros H. unfold get_heading_level, _get_header_level.
  rewrite (title_in_lower pre w post H), orb_true_r. split; reflexivity.
Qed.

Lemma title_label_has_level_1_witness :
  any_case (lit "TiTlE") (lit "title")
  /\ get_heading_level (lit "Sub" ++ lit "TiTlE" ++ lit "-h3") = 1%Z
  /\ _get_header_level (lit "Sub" ++ lit "TiTlE" ++ lit "-h3") = 1%Z.
Proof.
  assert (H : any_case (lit "TiTlE") (lit "title")).
  { repeat constructor; (now left) || (now right). }
  split; [exact H|].
  exact (title_label_has_level_1 (lit "Sub") (lit "TiTlE") (lit "-h3") H).
Defined.

(** C4. A label whose lower-cased form contains none of "title", "h1", "h2",
    "h3", "h4" gets the default level 2 from [get_heading_level]. *)
Theorem default_heading_level (label : str) :
  contains (lit "title") (lower label) = false ->
  contains (lit "h1") (lower label) = false ->
  contains (lit "h2") (lower label) = false ->
  contains (lit "h3") (lower label) = false ->
  contains (lit "h4") (lower label) = false ->
  get_heading_level label = 2%Z.
Proof.
  intros Ht H1 H2 H3 H4. unfold get_heading_level.
  now rewrite Ht, H1, H2, H3, H4.
Qed.

Lemma default_heading_level_witness :
  let label := lit "Section-Heading" in
  (contains (lit "title") (lower label) = false
   /\ contains (lit "h1") (lower label) = false
   /\ contains (lit "h2") (lower label) = false
   /\ contains (lit "h3") (lower label) = false
   /\ contains (lit "h4") (lower label) = false)
  /\ get_heading_level label = 2%Z.
Proof.
  split; [repeat split|].
  apply (default_heading_level (lit "Section-Heading")); reflexivity.
Defined.

(** The processor's own level function has another default: 1. *)
Lemma default_header_level_processor (label : str) :
  contains (lit "title") (lower label) = false ->
  contains (lit "h1") (lower label) = false ->
  contains (lit "h2") (lower label) = false ->
  contains (lit "h3") (lower label) = false ->
  contains (lit "h4") (lower label) = false ->
  _get_header_level label = 1%Z.
Proof.
  intros Ht H1 H2 H3 H4. unfold _get_header_level.
  now rewrite Ht, H1, H2, H3, H4.
Qed.

(** The order of the checks: the first match wins. *)
Lemma heading_level_h3 (label : str) :
  contains (lit "title") (lower label) = false ->
  contains (lit "h1") (lower label) = false ->
  contains (lit "h2") (lower label) = false ->
  contains (lit "h3") (lower label) = true ->
  get_heading_level label = 3%Z.
Proof.
  intros Ht H1 H2 H3. unfold get_heading_level.
  now rewrite Ht, H1, H2, H3.
Qed.

End HeadingLevel.

(** ** The accumulator monad: invariants *)

Section Invariants.

Variables (S : Type) (P : S -> Prop).

Lemma keeps_ret (A : Type) (a : A) : keeps P (ret a).
Proof. intros s Hs. exact Hs. Qed.

Lemma keeps_lift (A : Type) (x : exc A) : keeps P (lift x).
Proof. intros s Hs. exact Hs. Qed.

Lemma keeps_modify (f : S -> S) :
  (forall s, P s -> P (f s)) -> keeps P (modify f).
Proof. intros Hf s Hs. apply Hf, Hs. Qed.

Lemma keeps_bind (A B : Type) (m : M S A) (f : A -> M S B) :
  keeps P m -> (forall a, keeps P (f a)) -> keeps P (bind m f).
Proof.
  intros Hm Hf s Hs. unfold bind.
  specialize (Hm s Hs). destruct (m s) as [s' [a|e]]; simpl in *.
  - apply Hf, Hm.
  - exact Hm.
Qed.

Lemma keeps_for_each (X : Type) (xs : list X) (body : X -> M S unit) :
  (forall x, keeps P (body x)) -> keeps P (for_each xs body).
Proof.
  intros Hb. induction xs as [|x xs IH]; simpl.
  - apply keeps_ret.
  - apply keeps_bind; [apply Hb | intros _; exact IH].
Qed.

Lemma keeps_if (A : Type) (b : bool) (m1 m2 : M S A) :
  keeps P m1 -> keeps P m2 -> keeps P (if b then m1 else m2).
Proof. destruct b; auto. Qed.

Lemma run_swallow_keeps (body : M S unit) (s : S) :
  keeps P body -> P s -> P (run_swallow body s).
Proof. intros Hb Hs. apply Hb, Hs. Qed.

End Invariants.

Create HintDb keeps.
#[local] Hint Resolve keeps_ret keeps_lift keeps_modify keeps_bind
  keeps_for_each keeps_if : keeps.

(** ** The structural outline *)

Section Outline.

Import App.


Lemma heading_step_untitled (text_item : TextItem) :
  keeps untitled (heading_step text_item).
Proof.
  unfold heading_step.
  destruct (item_label text_item) as [label|]; [|auto with keeps].
  repeat apply keeps_if; auto with keeps.
Qed.

Lemma table_step_untitled (it : Z * Table) :
  keeps untitled (table_step it).
Proof.
  destruct it as [i table]. unfold table_step.
  apply keeps_bind; [auto with keeps|]. intros has.
  apply keeps_bind.
  - destruct has; auto with keeps.
  - intros c. apply keeps_modify. intros s Hs. exact Hs.
Qed.

Lemma structure_body_untitled (doc : Document) :
  keeps untitled (structure_body doc).
Proof.
  unfold structure_body.
  apply keeps_bind; [auto with keeps|]. intros has_texts.
  apply keeps_bind.
  - destruct has_texts; auto with keeps.
    apply keeps_bind; [auto with keeps|]. intros texts.
    apply keeps_for_each, heading_step_untitled.
  - intros _. apply keeps_bind; [auto with keeps|]. intros has_tbls.
    destruct has_tbls; auto with keeps.
    apply keeps_bind; [auto with keeps|]. intros tbls.
    apply keeps_for_each, table_step_untitled.
Qed.

(** C10. The outline returned by [extract_document_structure] has no title:
    the field stays [None] for every document, also one with "title" items,
    which only add entries to the sections. *)
Theorem outline_title_is_none (doc : Document) :
  title (extract_document_structure doc) = None.
Proof.
  unfold extract_document_structure.
  apply (run_swallow_keeps Structure untitled).
  - apply structure_body_untitled.
  - reflexivity.
Qed.

(** A "title" item is recorded as a section of level 1. *)
Example outline_title_item :
  let doc := texts_doc [{| item_label := Some (lit "title");
                           item_text := lit " Annual Report ";
                           item_page_no := Some 1%Z |}] in
  title (extract_document_structure doc) = None
  /\ sections (extract_document_structure doc)
     = [{| level := 1; section_text := lit "Annual Report";
           section_type := lit "title" |}].
Proof. split; reflexivity. Qed.

End Outline.

(** ** Metadata *)

Section Metadata.

Import App.

Lemma get_page_count_value (doc : Document) :
  get_page_count doc
  = Val (match doc_pages doc with
         | Present pages => Z.of_nat (length pages)
         | _ => 1%Z
         end).
Proof.
  unfold get_page_count. destruct (doc_pages doc); reflexivity.
Qed.

(** C3, as the code has it. [get_page_count] never raises; it returns the
    length of the page collection when [pages] is present and 1 when it is
    absent or its access raises; the result is 0 exactly when the collection
    is present and empty. *)
Theorem get_page_count_total (doc : Document) :
  exists n : Z,
    get_page_count doc = Val n
    /\ (forall pages, doc_pages doc = Present pages ->
        n = Z.of_nat (length pages))
    /\ (doc_pages doc = Absent -> n = 1%Z)
    /\ (forall e, doc_pages doc = Faulty e -> n = 1%Z)
    /\ (n = 0%Z <-> doc_pages doc = Present []).
Proof.
  rewrite get_page_count_value.
  destruct (doc_pages doc) as [|e|pages]; eexists; (split; [reflexivity|]);
    repeat split; try congruence; try discriminate.
  - intros H. destruct pages; [reflexivity|simpl in H; lia].
  - intros H. now injection H as ->.
Qed.

(** C3, as stated, fails: a document whose page collection is present and
    empty has page count 0. *)
Lemma get_page_count_zero :
  doc_pages no_page_doc = Present [] /\ get_page_count no_page_doc = Val 0%Z.
Proof. split; reflexivity. Qed.

Lemma has_tables_total (doc : Document) : exists b, has_tables doc = Val b.
Proof. unfold has_tables. destruct (doc_tables doc); simpl; eauto. Qed.

Lemma has_images_total (doc : Document) : exists b, has_images doc = Val b.
Proof. unfold has_images. destruct (doc_pictures doc); simpl; eauto. Qed.

End Metadata.

(** ** Page-aware chunks *)

Section PageChunks.

Import DoclingProcessor.

Lemma page_eqb_eq (a b : option Z) : page_eqb a b = true <-> a = b.
Proof.
  destruct a as [x|], b as [y|]; simpl; try (split; congruence).
  rewrite Z.eqb_eq. split; congruence.
Qed.

(** C5, at an input where it fails. The items [(0,"a"); (1,"b")] go into one
    chunk, since the page 0 of the running chunk counts as false in the test
    of the page change; the chunk carries page 1, the page of its last item,
    and not page 0, the page of its first item. *)
Theorem chunk_page_is_not_first_item_page :
  let items := [item (Some 0%Z) "a"; item (Some 1%Z) "b"] in
  exists c,
    _create_chunks (texts_doc items) (lit "doc") = [c]
    /\ content c = lit "a b"
    /\ page_number c = Some 1%Z
    /\ page_number c <> item_page_no (hd (item None "") items).
Proof.
  eexists. split; [reflexivity|]. repeat split. discriminate.
Qed.

(** The same happens when the first item has no page number. *)
Example chunk_page_after_unpaged_item :
  map (fun c => (content c, page_number c))
      (_create_chunks (texts_doc [item None "a"; item (Some 1%Z) "b"])
         (lit "doc"))
  = [(lit "a b", Some 1%Z)].
Proof. reflexivity. Qed.

(** C6, at an input where it fails. With the distinct page numbers 0 and 1
    the items [(0,"a"); (0,"b"); (1,"c")] give one chunk, "a b c" on page 1,
    and not the two chunks "a b" on page 0 and "c" on page 1. *)
Theorem page_zero_is_not_split :
  0%Z <> 1%Z
  /\ _create_chunks
       (texts_doc [item (Some 0%Z) "a"; item (Some 0%Z) "b";
                   item (Some 1%Z) "c"])
       (lit "doc")
     = [text_chunk (lit "doc") 0 [lit "a"; lit "b"; lit "c"] (Some 1%Z)].
Proof. split; [discriminate | reflexivity]. Qed.

(** With a first page number other than 0 the example of C6 is split as the
    specification says. *)
Lemma pages_are_split (p1 p2 : Z) (document_id : str) :
  p1 <> p2 -> p1 <> 0%Z ->
  _create_chunks
    (texts_doc [item (Some p1) "a"; item (Some p1) "b"; item (Some p2) "c"])
    document_id
  = [text_chunk document_id 0 [lit "a"; lit "b"] (Some p1);
     text_chunk document_id 1 [lit "c"] (Some p2)].
Proof.
  intros H12 H1.
  assert (E1 : (p1 =? 0)%Z = false) by now apply Z.eqb_neq.
  assert (E2 : (p2 =? p1)%Z = false) by (apply Z.eqb_neq; congruence).
  unfold _create_chunks, run_swallow, create_chunks_body, text_chunks.
  cbn. rewrite E1, Z.eqb_refl. cbn. rewrite E2. reflexivity.
Qed.

Lemma pages_are_split_witness :
  _create_chunks
    (texts_doc [item (Some 3%Z) "a"; item (Some 3%Z) "b"; item (Some 4%Z) "c"])
    (lit "doc")
  = [text_chunk (lit "doc") 0 [lit "a"; lit "b"] (Some 3%Z);
     text_chunk (lit "doc") 1 [lit "c"] (Some 4%Z)].
Proof. apply pages_are_split; discriminate. Defined.

Lemma text_step_skip (document_id : str) (st : TextState) (it : TextItem) :
  kept it = false -> text_step document_id st it = st.
Proof. intros H. unfold text_step. unfold kept, stripped in H. now rewrite H. Qed.

Lemma text_step_flush (document_id : str) (st : TextState) (it : TextItem) :
  kept it = true ->
  (truthy_page (current_page st)
   && negb (page_eqb (item_page_no it) (current_page st))
   || (len (join space (current_chunk st)) >? 1000)%Z)
  && App.nonempty (current_chunk st) = true ->
  text_step document_id st it
  = {| chunks := chunks st
                 ++ [text_chunk document_id (chunk_id st) (current_chunk st)
                       (current_page st)];
       chunk_id := (chunk_id st + 1)%Z;
       current_chunk := [stripped it];
       current_page := item_page_no it |}.
Proof.
  intros H F. unfold text_step. unfold kept, stripped in H. rewrite H.
  apply andb_true_iff in F as [-> ->]. reflexivity.
Qed.

Lemma text_step_keep (document_id : str) (st : TextState) (it : TextItem) :
  kept it = true ->
  (truthy_page (current_page st)
   && negb (page_eqb (item_page_no it) (current_page st))
   || (len (join space (current_chunk st)) >? 1000)%Z)
  && App.nonempty (current_chunk st) = false ->
  text_step document_id st it
  = {| chunks := chunks st;
       chunk_id := chunk_id st;
       current_chunk := current_chunk st ++ [stripped it];
       current_page := item_page_no it |}.
Proof.
  intros H F. unfold text_step. unfold kept, stripped in H. rewrite H.
  cbn [negb]. apply andb_false_iff in F as [->| ->]; [reflexivity|].
  now destruct (_ || _).
Qed.

Lemma same_page_last (g : list TextItem) :
  g <> [] -> same_page g ->
  item_page_no (last g no_item) = item_page_no (hd no_item g).
Proof.
  intros Hne H. apply H. destruct (exists_last Hne) as (l & x & ->).
  rewrite last_last. apply in_or_app. right. now left.
Qed.

Lemma same_page_single (it : TextItem) : same_page [it].
Proof. intros x [<-|[]]. reflexivity. Qed.

Lemma same_page_snoc (cur : list TextItem) (it : TextItem) :
  same_page cur ->
  (cur <> [] -> item_page_no it = item_page_no (last cur no_item)) ->
  same_page (cur ++ [it]).
Proof.
  intros Hsp Hit. destruct cur as [|c0 cur]; [apply same_page_single|].
  assert (Hne : c0 :: cur <> []) by discriminate.
  intros x Hx. change (hd no_item ((c0 :: cur) ++ [it])) with c0.
  apply in_app_or in Hx as [Hx|[<-|[]]].
  - apply (Hsp x Hx).
  - rewrite (Hit Hne). apply (same_page_last _ Hne Hsp).
Qed.

(** An item added to a running chunk whose last item has a page number that
    counts as true is on the page of that item. *)
Lemma kept_on_same_page (st : TextState) (cur : list TextItem)
  (it : TextItem) :
  running st cur -> cur <> [] -> paged (last cur no_item) ->
  (truthy_page (current_page st)
   && negb (page_eqb (item_page_no it) (current_page st))
   || (len (join space (current_chunk st)) >? 1000)%Z)
  && App.nonempty (current_chunk st) = false ->
  item_page_no it = item_page_no (last cur no_item).
Proof.
  intros [Hcur Hpage] Hne Hl F.
  rewrite Hcur, (Hpage Hne) in F. unfold paged in Hl. rewrite Hl in F.
  destruct cur as [|c0 cur]; [easy|]. cbn [map App.nonempty andb] in F.
  rewrite andb_true_r in F. apply orb_false_iff in F as [F _].
  now apply negb_false_iff, page_eqb_eq in F.
Qed.

Lemma in_last (g : list TextItem) : g <> [] -> In (last g no_item) g.
Proof.
  intros Hne. destruct (exists_last Hne) as (l & x & ->).
  rewrite last_last. apply in_or_app. right. now left.
Qed.

(** The loop over the text items cuts the kept items into groups; when all
    of them have a page number that counts as true, a group is on one page. *)
Lemma text_loop_groups (document_id : str) (items : list TextItem) :
  forall st cur,
    running st cur ->
    let st' := fold_left (text_step document_id) items st in
    exists gs cur',
      chunks st' = chunks st ++ group_chunks document_id (chunk_id st) gs
      /\ chunk_id st' = (chunk_id st + Z.of_nat (length gs))%Z
      /\ running st' cur'
      /\ concat gs ++ cur' = cur ++ filter kept items
      /\ Forall (fun g => g <> []) gs
      /\ (Forall paged (cur ++ filter kept items) -> same_page cur ->
          Forall same_page gs /\ same_page cur').
Proof.
  induction items as [|it items IH]; intros st cur Hrun; cbn [fold_left].
  - exists [], cur. simpl. rewrite !app_nil_r, Z.add_0_r.
    repeat split; auto; apply Hrun.
  - destruct (kept it) eqn:Hk.
    2:{ rewrite text_step_skip by exact Hk. cbn [filter]. rewrite Hk.
        apply IH, Hrun. }
    cbn [filter]. rewrite Hk.
    destruct ((truthy_page (current_page st)
               && negb (page_eqb (item_page_no it) (current_page st))
               || (len (join space (current_chunk st)) >? 1000)%Z)
              && App.nonempty (current_chunk st)) eqn:F.
    + rewrite text_step_flush by assumption.
      destruct Hrun as [Hcur Hpage].
      assert (Hne : cur <> []).
      { apply andb_true_iff in F as [_ F]. rewrite Hcur in F.
        now destruct cur. }
      match goal with
      | |- context [fold_left _ items ?s] =>
        destruct (IH s [it]) as (gs & cur' & Hc & Hid & Hr & Hcat & Hg & Hp)
      end.
      { split; [reflexivity | intros _; reflexivity]. }
      cbn [chunks chunk_id current_chunk current_page] in *.
      exists (cur :: gs), cur'.
      split; [|split; [|split; [exact Hr|split; [|split]]]].
      * rewrite Hc, <- app_assoc. cbn [group_chunks app].
        unfold group_chunk at 1. now rewrite <- Hcur, <- (Hpage Hne).
      * rewrite Hid. cbn [length]. lia.
      * cbn [concat]. rewrite <- app_assoc, Hcat. reflexivity.
      * now constructor.
      * intros Hpg Hsp. apply Forall_app in Hpg as [_ Hpg].
        destruct (Hp Hpg (same_page_single it)) as [Hgs Hcur'].
        split; [now constructor | exact Hcur'].
    + rewrite text_step_keep by assumption.
      match goal with
      | |- context [fold_left _ items ?s] =>
        destruct (IH s (cur ++ [it]))
          as (gs & cur' & Hc & Hid & Hr & Hcat & Hg & Hp)
      end.
      { destruct Hrun as [Hcur Hpage]. split; cbn [current_chunk current_page].
        - now rewrite Hcur, map_app.
        - intros _. now rewrite last_last. }
      cbn [chunks chunk_id current_chunk current_page] in *.
      exists gs, cur'.
      split; [exact Hc|split; [exact Hid|split; [exact Hr|]]].
      split; [|split; [exact Hg|]].
      * rewrite Hcat, <- app_assoc. reflexivity.
      * intros Hpg Hsp. apply Hp.
        -- now rewrite <- app_assoc.
        -- apply same_page_snoc; [exact Hsp|]. intros Hne.
           apply (kept_on_same_page st cur it Hrun Hne); [|exact F].
           rewrite Forall_forall in Hpg. apply Hpg, in_or_app. left.
           now apply in_last.
Qed.

Lemma group_chunks_app (document_id : str) (gs : list (list TextItem))
  (g : list TextItem) :
  forall k,
    group_chunks document_id k (gs ++ [g])
    = group_chunks document_id k gs
      ++ [group_chunk document_id (k + Z.of_nat (length gs)) g].
Proof.
  induction gs as [|g0 gs IH]; intros k; cbn [group_chunks app length].
  - now rewrite Z.add_0_r.
  - rewrite IH.
    replace (k + 1 + Z.of_nat (length gs))%Z
      with (k + Z.of_nat (S (length gs)))%Z by lia.
    reflexivity.
Qed.

(** The text chunks are the chunks of a partition of the kept items into
    groups, numbered from 0; each carries the page of the last item of its
    group. *)
Lemma text_chunks_groups (document_id : str) (items : list TextItem) :
  exists groups,
    text_chunks document_id items [] = group_chunks document_id 0 groups
    /\ concat groups = filter kept items
    /\ Forall (fun g => g <> []) groups
    /\ (Forall paged (filter kept items) -> Forall same_page groups).
Proof.
  unfold text_chunks.
  match goal with
  | |- context [fold_left _ items ?s] =>
    destruct (text_loop_groups document_id items s [])
      as (gs & cur & Hc & Hid & [Hcur Hpage] & Hcat & Hg & Hp)
  end.
  { split; [reflexivity | easy]. }
  cbn [chunks chunk_id app] in *.
  assert (Hsp0 : same_page []) by (intros x []).
  destruct (App.nonempty _) eqn:Hne.
  - assert (Hcne : cur <> []) by (rewrite Hcur in Hne; now destruct cur).
    exists (gs ++ [cur]). repeat split.
    + rewrite group_chunks_app, Hc, Hid. unfold group_chunk.
      now rewrite <- Hcur, <- (Hpage Hcne).
    + rewrite concat_app. simpl. now rewrite app_nil_r.
    + apply Forall_app. split; [exact Hg | now constructor].
    + intros Hpg. destruct (Hp Hpg Hsp0) as [Hgs Hcs].
      apply Forall_app. split; [exact Hgs | now constructor].
  - assert (Hcnil : cur = []) by (rewrite Hcur in Hne; now destruct cur).
    subst cur. rewrite app_nil_r in Hcat.
    exists gs. repeat split; try assumption.
    intros Hpg. apply (Hp Hpg Hsp0).
Qed.

(** The page of a text chunk is the page of the first item of its group
    when every kept item has a page number that counts as true: neither
    [None] nor 0. *)
Lemma chunk_page_is_first_item_page (document_id : str)
  (items : list TextItem) :
  Forall paged (filter kept items) ->
  exists groups,
    concat groups = filter kept items
    /\ Forall2 (fun c g =>
                  g <> []
                  /\ content c = join space (map stripped g)
                  /\ page_number c = item_page_no (hd no_item g))
               (text_chunks document_id items []) groups.
Proof.
  intros Hpg.
  destruct (text_chunks_groups document_id items)
    as (groups & -> & Hcat & Hne & Hsp).
  exists groups. split; [exact Hcat|].
  specialize (Hsp Hpg). clear Hcat Hpg. generalize 0%Z.
  induction groups as [|g groups IH]; intros k; cbn [group_chunks].
  - constructor.
  - inversion Hne as [|? ? Hg Hne']; inversion Hsp as [|? ? Hs Hsp']; subst.
    constructor.
    + repeat split; [exact Hg|]. simpl. now apply same_page_last.
    + now apply IH.
Qed.

Lemma chunk_page_is_first_item_page_check :
  let items := [item (Some 2%Z) "a"; item (Some 2%Z) " "; item (Some 5%Z) "b"]
  in
  Forall paged (filter kept items)
  /\ map (fun c => (content c, page_number c))
         (text_chunks (lit "doc") items [])
     = [(lit "a", Some 2%Z); (lit "b", Some 5%Z)].
Proof.
  split; [|reflexivity]. repeat constructor.
Qed.

Lemma table_step_exports (document_id : str) (i : Z) (table : Table)
  (chunks0 : list DocumentChunk) :
  exports_html table <> None ->
  table_step document_id (i, table) chunks0
  = (chunks0 ++ [table_chunk_of document_id (i, table)], Val tt).
Proof.
  unfold table_step, table_chunk_of, html_of, exports_html. simpl.
  destruct (export_to_html table) as [|e|[html|e]]; simpl; intros H;
    try reflexivity; now destruct H.
Qed.

Lemma table_loop_exports (document_id : str) (its : list (Z * Table)) :
  Forall (fun it => exports_html (snd it) <> None) its ->
  forall chunks0,
    for_each its (table_step document_id) chunks0
    = (chunks0 ++ map (table_chunk_of document_id) its, Val tt).
Proof.
  induction 1 as [|[i table] its Hx _ IH]; intros chunks0;
    cbn [for_each map].
  - unfold ret. now rewrite app_nil_r.
  - unfold bind. rewrite table_step_exports by exact Hx.
    rewrite IH, <- app_assoc.
    reflexivity.
Qed.

Lemma enumerate_snd (A : Type) (xs : list A) : map snd (enumerate xs) = xs.
Proof.
  unfold enumerate. generalize 0%nat.
  induction xs as [|x xs IH]; intros k; simpl; [reflexivity|].
  now rewrite IH.
Qed.

(** When the texts and the tables are present and no table exporter raises,
    the chunks are the text chunks followed by one chunk per table. *)
Lemma tables_follow_texts (doc : Document) (document_id : str)
  (items : list TextItem) (tbls : list Table) :
  doc_texts doc = Present items ->
  doc_tables doc = Present tbls ->
  Forall (fun table => exports_html table <> None) tbls ->
  _create_chunks doc document_id
  = text_chunks document_id items []
    ++ map (table_chunk_of document_id) (enumerate tbls).
Proof.
  intros Ht Hb Hx.
  unfold _create_chunks, run_swallow, create_chunks_body, bind, lift, modify.
  rewrite Ht, Hb. simpl. rewrite table_loop_exports; [reflexivity|].
  apply Forall_forall. intros it Hin. rewrite Forall_forall in Hx.
  apply Hx. rewrite <- (enumerate_snd Table tbls). now apply in_map.
Qed.

End PageChunks.

(** ** The [/extract] endpoint *)

Section Endpoint.

Import App.

Lemma str_eqb_eq (a b : str) : str_eqb a b = true <-> a = b.
Proof.
  revert b; induction a as [|x a IH]; intros [|y b]; simpl;
    try (split; congruence).
  rewrite andb_true_iff, Ascii.eqb_eq, IH. split.
  - intros [-> ->]. reflexivity.
  - intros H. injection H as -> ->. now split.
Qed.

Lemma extraction_content_outcome (doc : Document) :
  match markdown doc 0 with
  | Val md => exists content, extraction_content doc = Val (md, content)
  | Raise e => extraction_content doc = Raise e
  end.
Proof.
  unfold extraction_content.
  destruct (markdown doc 0) as [md|e]; simpl; [|reflexivity].
  rewrite get_page_count_value. simpl.
  destruct (has_tables_total doc) as [t ->].
  destruct (has_images_total doc) as [i ->]. simpl. eauto.
Qed.

(** The conversion step never lets an [HTTPException] of its own out: what
    it returns or raises goes through the outer handler. *)
Lemma extract_document_returns (file : UploadFile) (api_key : str)
  (callback_url resource_id : option str) (w : World) :
  endswith (lit ".pdf") (lower (filename file)) = true ->
  exists body,
    extract_document file api_key callback_url resource_id w = Val body.
Proof.
  intros Hpdf. unfold extract_document. rewrite Hpdf. simpl.
  match goal with
  | |- exists b, try_except ?x _ = _ => destruct x as [b|e]
  end; simpl; eauto.
Qed.

Lemma extract_document_rejects (file : UploadFile) (api_key : str)
  (callback_url resource_id : option str) (w : World) :
  endswith (lit ".pdf") (lower (filename file)) = false ->
  extract_document file api_key callback_url resource_id w
  = Raise (HTTPException 400 (lit "Only PDF files are supported")).
Proof. intros Hpdf. unfold extract_document. now rewrite Hpdf. Qed.

Lemma processing_raises_failure (file : UploadFile) (api_key : str)
  (callback_url resource_id : option str) (w : World) (e : exn) :
  endswith (lit ".pdf") (lower (filename file)) = true ->
  processing_raises file w e ->
  extract_document file api_key callback_url resource_id w
  = Val (failure_body (filename file) e).
Proof.
  intros Hpdf H. unfold extract_document, convert_and_transform.
  rewrite Hpdf. simpl.
  destruct H as [Hr | b Hr Ht | b path Hr Ht Hc Hu | b path doc Hr Ht Hc Hm Hu
                 | b path Hr Ht Hu]; rewrite Hr; simpl; try rewrite Ht; simpl;
    try reflexivity.
  - rewrite Hc, Hu. reflexivity.
  - rewrite Hc, Hu. simpl.
    pose proof (extraction_content_outcome doc) as Ho. rewrite Hm in Ho.
    now rewrite Ho.
  - rewrite Hu. reflexivity.
Qed.

(** The answers with an error status: 401 for a wrong key, 400 for a file
    name that does not end in [.pdf]; everything else is a 200. *)
Lemma endpoint_status (API_KEY credentials : str) (file : UploadFile)
  (callback_url resource_id : option str) (w : World) :
  http_status
    (extract_endpoint API_KEY credentials file callback_url resource_id w)
  = if negb (str_eqb credentials API_KEY) then 401%Z
    else if negb (endswith (lit ".pdf") (lower (filename file))) then 400%Z
    else 200%Z.
Proof.
  unfold extract_endpoint, verify_api_key.
  destruct (endswith (lit ".pdf") (lower (filename file))) eqn:Hpdf;
    (destruct (str_eqb credentials API_KEY); cbn [negb exc_bind];
     [|reflexivity]).
  - destruct (extract_document_returns file credentials callback_url
                resource_id w Hpdf) as [body ->]. reflexivity.
  - now rewrite extract_document_rejects.
Qed.

(** What the outer handler reports when the conversion or the transform
    raises [e]: an exception of the cleanup replaces it. *)
Lemma conversion_raises_reported (file : UploadFile) (w : World)
  (bytes path : str) (e : exn) :
  read file = Val bytes ->
  write_temp w bytes = Val path ->
  (convert w path = Raise e
   \/ exists doc, convert w path = Val doc /\ markdown doc 0 = Raise e) ->
  processing_raises file w
    (match unlink w path with Val _ => e | Raise e2 => e2 end).
Proof.
  intros Hr Ht Hc. destruct (unlink w path) as [[]|e2] eqn:Hu.
  - destruct Hc as [Hc|(doc & Hc & Hm)].
    + eapply raises_convert; eassumption.
    + eapply raises_transform; eassumption.
  - eapply raises_cleanup; eassumption.
Qed.

(** C8, as the code has it. When the conversion or the transform of an
    accepted upload raises an exception, the handler does not let it out: it
    returns, with status 200, the body
    [{filename, success: false, error: <message>, content: null}], where the
    message is that of the exception when the cleanup of the temporary file
    returns, and that of the exception of the cleanup when the cleanup
    raises as well. With the right key the endpoint answers the same, and
    the status of the endpoint is an error status only for a wrong key. *)
Theorem conversion_failure_is_data (file : UploadFile) (api_key : str)
  (callback_url resource_id : option str) (w : World) (bytes path : str)
  (e : exn) :
  endswith (lit ".pdf") (lower (filename file)) = true ->
  read file = Val bytes ->
  write_temp w bytes = Val path ->
  (convert w path = Raise e
   \/ exists doc, convert w path = Val doc /\ markdown doc 0 = Raise e) ->
  let answer := extract_document file api_key callback_url resource_id w in
  let reported := match unlink w path with Val _ => e | Raise e2 => e2 end in
  answer
  = Val (JObj [(lit "filename", JStr (filename file));
               (lit "success", JBool false);
               (lit "error", JStr (message reported));
               (lit "content", JNull)])
  /\ http_status answer = 200%Z
  /\ forall API_KEY credentials,
       let served :=
         extract_endpoint API_KEY credentials file callback_url resource_id w in
       (credentials = API_KEY -> served = answer)
       /\ (http_status served <> 200%Z ->
           credentials <> API_KEY /\ http_status served = 401%Z).
Proof.
  intros Hpdf Hr Ht Hc answer reported.
  assert (Ha : answer = Val (failure_body (filename file) reported)).
  { apply processing_raises_failure; [exact Hpdf|].
    now apply (conversion_raises_reported file w bytes path e). }
  split; [exact Ha|]. split; [now rewrite Ha|].
  intros API_KEY credentials served. split.
  - intros ->. unfold served, extract_endpoint, verify_api_key.
    rewrite (proj2 (str_eqb_eq API_KEY API_KEY) eq_refl). simpl.
    unfold answer, extract_document. reflexivity.
  - unfold served. rewrite endpoint_status, Hpdf. simpl.
    destruct (str_eqb credentials API_KEY) eqn:E; simpl.
    + intros Hne. now destruct Hne.
    + intros _. split; [|reflexivity].
      intros ->. rewrite (proj2 (str_eqb_eq API_KEY API_KEY) eq_refl) in E.
      discriminate.
Qed.

Lemma conversion_failure_is_data_witness :
  (endswith (lit ".pdf") (lower (filename pdf_upload)) = true
   /\ convert failing_converter (lit "/tmp/tmpq1.pdf") = Raise corrupt_pdf
   /\ convert double_fault (lit "/tmp/tmpq1.pdf") = Raise corrupt_pdf)
  /\ extract_document pdf_upload (lit "key") None None failing_converter
     = Val (JObj [(lit "filename", JStr (lit "report.PDF"));
                  (lit "success", JBool false);
                  (lit "error", JStr (lit "not a valid PDF"));
                  (lit "content", JNull)])
  /\ extract_document pdf_upload (lit "key") None None double_fault
     = Val (JObj [(lit "filename", JStr (lit "report.PDF"));
                  (lit "success", JBool false);
                  (lit "error", JStr (lit "unlink failed"));
                  (lit "content", JNull)]).
Proof.
  split; [repeat split|]. split.
  - exact (proj1 (conversion_failure_is_data pdf_upload (lit "key") None None
                    failing_converter (lit "%PDF-1.7") (lit "/tmp/tmpq1.pdf")
                    corrupt_pdf eq_refl eq_refl eq_refl
                    (or_introl eq_refl))).
  - exact (proj1 (conversion_failure_is_data pdf_upload (lit "key") None None
                    double_fault (lit "%PDF-1.7") (lit "/tmp/tmpq1.pdf")
                    corrupt_pdf eq_refl eq_refl eq_refl
                    (or_introl eq_refl))).
Defined.

(** C8, as stated, fails: when the conversion raises and the cleanup of the
    temporary file raises too, the body carries the message of the cleanup
    and not the message of the exception of the conversion. *)
Lemma double_fault_reports_cleanup :
  endswith (lit ".pdf") (lower (filename pdf_upload)) = true
  /\ convert double_fault (lit "/tmp/tmpq1.pdf") = Raise corrupt_pdf
  /\ extract_document pdf_upload (lit "key") None None double_fault
     = Val (JObj [(lit "filename", JStr (lit "report.PDF"));
                  (lit "success", JBool false);
                  (lit "error", JStr (lit "unlink failed"));
                  (lit "content", JNull)])
  /\ extract_document pdf_upload (lit "key") None None double_fault
     <> Val (JObj [(lit "filename", JStr (lit "report.PDF"));
                   (lit "success", JBool false);
                   (lit "error", JStr (message corrupt_pdf));
                   (lit "content", JNull)]).
Proof.
  repeat split. intros H. discriminate H.
Qed.

End Endpoint.

(** ** Strings: splitting and joining *)

(** Passing the rest of a matched separator. *)
Lemma split_from_skip (sp s' rest cur : str) :
  split_from sp (length s') cur (s' ++ rest) = split_from sp 0 cur rest.
Proof. induction s' as [|c s' IH]; simpl; [reflexivity | exact IH]. Qed.

Section SplitJoin.

Variable sep : str.
Hypothesis sep_nonempty : sep <> [].

Lemma startswith_nil : startswith sep [] = false.
Proof. destruct sep; [contradiction | reflexivity]. Qed.

Lemma startswith_longer (b s : str) :
  startswith sep b = true -> startswith sep (b ++ s) = true.
Proof.
  intros H. apply startswith_spec in H as [r ->].
  rewrite <- app_assoc. apply startswith_app.
Qed.

Lemma contains_false_iff (p : str) :
  contains sep p = false
  <-> forall a b, p = a ++ b -> startswith sep b = false.
Proof.
  induction p as [|c p IH].
  - simpl. rewrite orb_false_r. split.
    + intros H a b E. symmetry in E. apply app_eq_nil in E as [_ ->].
      exact H.
    + intros H. apply (H [] []). reflexivity.
  - cbn [contains]. rewrite orb_false_iff, IH. split.
    + intros [H0 H] [|x a] b E; simpl in E.
      * now subst b.
      * injection E as _ E. eapply H, E.
    + intros H. split.
      * apply (H [] (c :: p)). reflexivity.
      * intros a b E. apply (H (c :: a) b). simpl. now rewrite E.
Qed.

Lemma contains_infix (a q b : str) :
  contains sep (a ++ q ++ b) = false -> contains sep q = false.
Proof.
  intros H. destruct (contains sep q) eqn:E; [|reflexivity].
  apply contains_spec in E as (x & y & ->).
  assert (C : contains sep (a ++ (x ++ sep ++ y) ++ b) = true).
  { apply contains_spec. exists (a ++ x), (y ++ b).
    now rewrite <- !app_assoc. }
  congruence.
Qed.

Lemma split_from_sep (rest cur : str) :
  split_from sep 0 cur (sep ++ rest) = rev cur :: split_from sep 0 [] rest.
Proof.
  pose proof (startswith_app sep rest) as H.
  destruct sep as [|c sep'] eqn:E; [contradiction|].
  cbn [app split_from]. cbn [app] in H. rewrite H.
  cbn [length]. rewrite Nat.sub_succ, Nat.sub_0_r.
  now rewrite split_from_skip.
Qed.

(** A piece in front of a separator, when no occurrence of the separator
    starts inside the piece. *)
Lemma split_from_piece (p rest cur : str) :
  (forall a b, p = a ++ b -> b <> [] ->
               startswith sep (b ++ sep ++ rest) = false) ->
  split_from sep 0 cur (p ++ sep ++ rest)
  = (rev cur ++ p) :: split_from sep 0 [] rest.
Proof.
  revert cur. induction p as [|c p IH]; intros cur H.
  - rewrite app_nil_r. apply split_from_sep.
  - assert (H0 : startswith sep ((c :: p) ++ sep ++ rest) = false)
      by (apply (H [] (c :: p) eq_refl); discriminate).
    cbn [app split_from] in *. rewrite H0, IH.
    + simpl. now rewrite <- app_assoc.
    + intros a b E Hb. apply (H (c :: a) b); [now rewrite E | exact Hb].
Qed.

Lemma split_from_last (p cur : str) :
  contains sep p = false ->
  split_from sep 0 cur p = [rev cur ++ p].
Proof.
  revert cur. induction p as [|c p IH]; intros cur H.
  - simpl. now rewrite app_nil_r.
  - cbn [contains] in H. apply orb_false_iff in H as [H0 H].
    cbn [split_from]. rewrite H0, IH by exact H.
    simpl. now rewrite <- app_assoc.
Qed.

Lemma suffix_snoc (l : str) (c : ascii) (a b' : str) :
  l ++ [c] = a ++ b' -> b' <> [] ->
  exists b, b' = b ++ [c] /\ l = a ++ b.
Proof.
  intros E Hb. destruct (exists_last Hb) as (b & x & ->).
  rewrite app_assoc in E. apply app_inj_tail in E as [-> ->].
  now exists b.
Qed.

(** The pieces of a split hold no separator. *)
Lemma split_from_sep_free (s : str) :
  (forall cur,
      (forall a b, rev cur = a ++ b -> b <> [] ->
                   startswith sep (b ++ s) = false) ->
      Forall (fun p => contains sep p = false) (split_from sep 0 cur s))
  /\ (forall k,
      Forall (fun p => contains sep p = false) (split_from sep k [] s)).
Proof.
  assert (piece : forall cur s0,
             (forall a b, rev cur = a ++ b -> b <> [] ->
                          startswith sep (b ++ s0) = false) ->
             contains sep (rev cur) = false).
  { intros cur s0 H. apply contains_false_iff. intros a b E.
    destruct b as [|x b]; [apply startswith_nil|].
    destruct (startswith sep (x :: b)) eqn:Eb; [|reflexivity].
    rewrite <- (H a (x :: b) E) by discriminate.
    symmetry. now apply startswith_longer. }
  induction s as [|c s [IH0 IHk]].
  - split.
    + intros cur H. simpl. constructor; [|constructor].
      eapply piece, H.
    + intros k. simpl. constructor; [|constructor].
      simpl. rewrite orb_false_r. apply startswith_nil.
  - assert (first : forall cur,
               (forall a b, rev cur = a ++ b -> b <> [] ->
                            startswith sep (b ++ c :: s) = false) ->
               Forall (fun p => contains sep p = false)
                      (split_from sep 0 cur (c :: s))).
    { intros cur H. cbn [split_from].
      destruct (startswith sep (c :: s)) eqn:E.
      - constructor; [eapply piece, H | apply IHk].
      - apply IH0. intros a b' E' Hb'. simpl in E'.
        destruct (suffix_snoc _ _ _ _ E' Hb') as (b & -> & Eb).
        rewrite <- app_assoc. simpl.
        destruct b as [|x b]; [exact E|].
        apply (H a (x :: b) Eb). discriminate. }
    split; [exact first|].
    intros [|k]; [|apply IHk].
    apply first. intros a b E Hb. simpl in E.
    symmetry in E. apply app_eq_nil in E as [_ ->]. now destruct Hb.
Qed.

Lemma split_sep_free (s : str) :
  Forall (fun p => contains sep p = false) (split sep s).
Proof.
  apply (proj2 (split_from_sep_free s) 0%nat).
Qed.

End SplitJoin.

(** ** Trimmed paragraphs *)

Section Trimmed.

Lemma dropwhile_suffix (f : ascii -> bool) (s : str) :
  exists a, s = a ++ dropwhile f s.
Proof.
  induction s as [|c s [a IH]]; simpl.
  - now exists [].
  - destruct (f c).
    + exists (c :: a). simpl. now rewrite <- IH.
    + now exists [].
Qed.

Lemma dropwhile_head (f : ascii -> bool) (s : str) (c : ascii) (t : str) :
  dropwhile f s = c :: t -> f c = false.
Proof.
  induction s as [|x s IH]; simpl; [discriminate|].
  destruct (f x) eqn:E; [exact IH|].
  intros H. injection H as -> _. exact E.
Qed.

Lemma strip_infix (s : str) : exists a b, s = a ++ strip s ++ b.
Proof.
  unfold strip, rstrip, lstrip.
  destruct (dropwhile_suffix isspace s) as [a Ha].
  destruct (dropwhile_suffix isspace (rev (dropwhile isspace s))) as [b Hb].
  exists a, (rev b). rewrite Ha at 1. f_equal.
  rewrite <- rev_app_distr, <- Hb. now rewrite rev_involutive.
Qed.

Lemma strip_last (s a : str) (c : ascii) :
  strip s = a ++ [c] -> isspace c = false.
Proof.
  unfold strip, rstrip. intros H.
  apply (f_equal (@rev ascii)) in H.
  rewrite rev_involutive, rev_app_distr in H. simpl in H.
  eapply dropwhile_head, H.
Qed.

Lemma truthy_nonempty (p : str) : truthy p = true <-> p <> [].
Proof. destruct p; simpl; split; congruence. Qed.

Lemma blank_line_nonempty : blank_line <> [].
Proof. discriminate. Qed.

Lemma paragraphs_clean (full_text : str) :
  Forall clean (paragraphs full_text).
Proof.
  unfold paragraphs. apply Forall_forall. intros p Hp.
  apply filter_In in Hp as [Hin Hne]. apply in_map_iff in Hin as (raw & <- & Hraw).
  repeat split.
  - now apply truthy_nonempty.
  - pose proof (split_sep_free blank_line blank_line_nonempty full_text) as H.
    rewrite Forall_forall in H. specialize (H raw Hraw).
    destruct (strip_infix raw) as (a & b & E). rewrite E in H.
    eapply contains_infix, H.
  - intros a c. apply strip_last.
Qed.

Lemma join_cons (sep p q : str) (ps : list str) :
  join sep (p :: q :: ps) = p ++ sep ++ join sep (q :: ps).
Proof. reflexivity. Qed.

Lemma startswith_blank_line (c1 c2 : ascii) (x : str) :
  startswith blank_line (c1 :: c2 :: x)
  = Ascii.eqb "010" c1 && Ascii.eqb "010" c2.
Proof.
  cbn [startswith blank_line lit list_ascii_of_string].
  now rewrite andb_true_r.
Qed.

(** Splitting what was joined gives the paragraphs back. *)
Lemma split_join_clean (ps : list str) :
  ps <> [] -> Forall clean ps ->
  split blank_line (join blank_line ps) = ps.
Proof.
  intros Hne H. unfold split. induction H as [|p ps Hp H IH]; [easy|].
  destruct Hp as (_ & Hfree & Hlast).
  destruct ps as [|q ps].
  - simpl. now rewrite (split_from_last blank_line p [] Hfree).
  - rewrite join_cons. set (rest := join blank_line (q :: ps)) in *.
    rewrite (split_from_piece blank_line blank_line_nonempty).
    + simpl. f_equal. apply IH. discriminate.
    + intros a b E Hb.
      destruct b as [|c1 [|c2 b]]; [easy| |].
      * assert (Hc : isspace c1 = false) by (eapply Hlast, E).
        change ([c1] ++ blank_line ++ rest)
          with (c1 :: "010"%char :: "010"%char :: rest).
        rewrite startswith_blank_line.
        destruct (Ascii.eqb "010" c1) eqn:Ec; [|reflexivity].
        apply Ascii.eqb_eq in Ec. subst c1. discriminate.
      * pose proof (proj1 (contains_false_iff blank_line p) Hfree a _ E) as F.
        rewrite startswith_blank_line in F.
        change ((c1 :: c2 :: b) ++ blank_line ++ rest)
          with (c1 :: c2 :: b ++ blank_line ++ rest).
        now rewrite startswith_blank_line.
Qed.

End Trimmed.

(** ** The paragraph chunker *)

Section ParagraphChunker.

Import App.
Local Open Scope Z_scope.

Variable max_chunk_size : Z.

Lemma total_app (a b : list str) : total (a ++ b) = total a + total b.
Proof. induction a as [|x a IH]; simpl; [reflexivity | rewrite IH; lia]. Qed.

Lemma total_single (p : str) : total [p] = len p.
Proof. simpl. lia. Qed.

Lemma nonempty_true (A : Type) (l : list A) : nonempty l = true <-> l <> [].
Proof. destruct l; simpl; split; congruence. Qed.

Lemma paragraph_step_blank (st : ParagraphState) (p : str) :
  truthy (strip p) = false -> paragraph_step max_chunk_size st p = st.
Proof. intros H. unfold paragraph_step. now rewrite H. Qed.

Lemma paragraph_step_flush (st : ParagraphState) (p : str) :
  truthy (strip p) = true ->
  (current_size st + len (strip p) >? max_chunk_size)
  && nonempty (current_chunk st) = true ->
  paragraph_step max_chunk_size st p
  = {| chunks := chunks st
                 ++ [paragraph_group (current_chunk st) (current_size st)];
       current_chunk := [strip p];
       current_size := len (strip p) |}.
Proof. intros H F. unfold paragraph_step. now rewrite H, F. Qed.

Lemma paragraph_step_keep (st : ParagraphState) (p : str) :
  truthy (strip p) = true ->
  (current_size st + len (strip p) >? max_chunk_size)
  && nonempty (current_chunk st) = false ->
  paragraph_step max_chunk_size st p
  = {| chunks := chunks st;
       current_chunk := current_chunk st ++ [strip p];
       current_size := current_size st + len (strip p) |}.
Proof. intros H F. unfold paragraph_step. now rewrite H, F. Qed.

(** The loop cuts the paragraphs read so far into groups. *)
Lemma paragraph_loop_groups (raw : list str) :
  forall st,
    running_ok max_chunk_size st ->
    let st' := fold_left (paragraph_step max_chunk_size) raw st in
    exists gs,
      chunks st' = chunks st ++ map chunk_of gs
      /\ Forall (group_ok max_chunk_size) gs
      /\ concat gs ++ current_chunk st'
         = current_chunk st ++ filter truthy (map strip raw)
      /\ running_ok max_chunk_size st'.
Proof.
  induction raw as [|p raw IH]; intros st Hst; cbn [fold_left].
  - exists []. simpl. rewrite !app_nil_r. auto.
  - destruct (truthy (strip p)) eqn:Hp.
    2:{ rewrite paragraph_step_blank by exact Hp.
        cbn [map filter]. rewrite Hp. apply IH, Hst. }
    destruct Hst as [Hsize Hbound].
    destruct ((current_size st + len (strip p) >? max_chunk_size)
              && nonempty (current_chunk st)) eqn:F.
    + rewrite paragraph_step_flush by assumption.
      apply andb_true_iff in F as [_ Hne]. apply nonempty_true in Hne.
      match goal with
      | |- context [fold_left _ raw ?s] => destruct (IH s) as (gs & Hc & Hg & Hcat & Hrun)
      end.
      { split; simpl; [lia | right; lia]. }
      exists (current_chunk st :: gs). cbn [chunks current_chunk] in *.
      repeat split.
      * rewrite Hc, <- app_assoc. cbn [map app]. unfold chunk_of at 1.
        now rewrite Hsize.
      * constructor; [|exact Hg]. split; [exact Hne|].
        destruct Hbound as [Hb|Hb]; [now left|right].
        destruct (current_chunk st) as [|x [|y l]]; try easy.
        -- now exists x.
        -- simpl in Hb. lia.
      * cbn [concat map filter]. rewrite Hp, <- app_assoc, Hcat. reflexivity.
      * apply Hrun.
      * apply Hrun.
    + rewrite paragraph_step_keep by assumption.
      match goal with
      | |- context [fold_left _ raw ?s] => destruct (IH s) as (gs & Hc & Hg & Hcat & Hrun)
      end.
      { split; cbn [current_size current_chunk].
        - rewrite total_app, total_single. lia.
        - rewrite total_app, total_single, length_app. simpl.
          apply andb_false_iff in F as [F|F].
          + left. lia.
          + right. destruct (current_chunk st); [simpl; lia | discriminate]. }
      exists gs. cbn [chunks current_chunk] in *.
      repeat split; try assumption; try apply Hrun.
      cbn [map filter]. rewrite Hp, Hcat, <- app_assoc. reflexivity.
Qed.

(** The chunks of the paragraph path are the chunks of a partition of the
    paragraphs into groups, in order. *)
Lemma paragraph_chunks_groups (full_text : str) :
  exists groups,
    paragraph_chunks max_chunk_size full_text = map chunk_of groups
    /\ Forall (group_ok max_chunk_size) groups
    /\ concat groups = paragraphs full_text.
Proof.
  unfold paragraph_chunks.
  match goal with
  | |- context [fold_left _ ?raw ?s] =>
    destruct (paragraph_loop_groups raw s) as (gs & Hc & Hg & Hcat & Hsz & Hb)
  end.
  { split; simpl; [reflexivity | right; lia]. }
  cbn [chunks current_chunk app] in *. fold (paragraphs full_text) in Hcat.
  destruct (nonempty _) eqn:Hne.
  - set (st' := fold_left _ _ _) in *.
    exists (gs ++ [current_chunk st']). rewrite map_app, Hc. repeat split.
    + cbn [map]. unfold chunk_of at 2. now rewrite Hsz.
    + apply Forall_app. split; [exact Hg|]. constructor; [|constructor].
      apply nonempty_true in Hne. split; [exact Hne|].
      destruct Hb as [Hb|Hb]; [now left|right].
      destruct (current_chunk st') as [|x [|y l]]; try easy.
      * now exists x.
      * simpl in Hb. lia.
    + rewrite concat_app. simpl. now rewrite app_nil_r.
  - exists gs. repeat split; try assumption.
    destruct (current_chunk _); [|discriminate].
    now rewrite app_nil_r in Hcat.
Qed.

Lemma join_app (sep : str) (a b : list str) :
  a <> [] -> b <> [] ->
  join sep (a ++ b) = join sep a ++ sep ++ join sep b.
Proof.
  intros Ha Hb. induction a as [|x a IH]; [easy|].
  destruct a as [|y a].
  - destruct b as [|z b]; [easy | reflexivity].
  - change ((x :: y :: a) ++ b) with (x :: y :: (a ++ b)).
    rewrite !join_cons. change (y :: a ++ b) with ((y :: a) ++ b).
    rewrite IH by discriminate. now rewrite <- !app_assoc.
Qed.

Lemma join_concat (sep : str) (gs : list (list str)) :
  Forall (fun g => g <> []) gs ->
  join sep (map (join sep) gs) = join sep (concat gs).
Proof.
  induction 1 as [|g gs Hg Hgs IH]; [reflexivity|].
  destruct gs as [|g2 gs].
  - simpl. now rewrite app_nil_r.
  - cbn [map] in *. rewrite join_cons, IH.
    change (concat (g :: g2 :: gs)) with (g ++ concat (g2 :: gs)).
    rewrite join_app; [reflexivity | exact Hg |].
    inversion Hgs as [|? ? Hg2 _]; subst.
    destruct g2; [easy | discriminate].
Qed.

Lemma constituents_chunk_of (g : list str) :
  g <> [] -> Forall clean g -> constituents (chunk_of g) = g.
Proof. intros Hne Hc. now apply split_join_clean. Qed.

(** What the paragraph path returns, for every text and every size: each
    chunk is a paragraph group whose size is the sum of the lengths of its
    paragraphs and is within the size unless the chunk is one paragraph; the
    paragraphs of the chunks, in order, are the paragraphs of the text. *)
Lemma paragraph_chunks_partition (full_text : str) :
  let result := paragraph_chunks max_chunk_size full_text in
  Forall (fun c =>
            size c = total (constituents c)
            /\ type c = lit "paragraph_group"
            /\ constituents c <> []
            /\ (size c <= max_chunk_size
                \/ exists p, constituents c = [p] /\ text c = p))
         result
  /\ concat (map constituents result) = paragraphs full_text
  /\ join blank_line (map text result)
     = join blank_line (paragraphs full_text).
Proof.
  destruct (paragraph_chunks_groups full_text) as (groups & -> & Hok & Hcat).
  assert (Hclean : Forall (Forall clean) groups).
  { apply Forall_concat. rewrite Hcat. apply paragraphs_clean. }
  assert (Hcons : map constituents (map chunk_of groups) = groups).
  { rewrite map_map. rewrite <- (map_id groups) at 2.
    apply map_ext_in. intros g Hg. rewrite Forall_forall in Hok, Hclean.
    apply constituents_chunk_of; [apply (Hok g Hg) | apply (Hclean g Hg)]. }
  repeat split.
  - apply Forall_forall. intros c Hc.
    apply in_map_iff in Hc as (g & <- & Hg).
    rewrite Forall_forall in Hok, Hclean.
    destruct (Hok g Hg) as [Hne Hb].
    rewrite (constituents_chunk_of g Hne (Hclean g Hg)).
    repeat split; [exact Hne|].
    destruct Hb as [Hb|[p ->]]; [now left | right].
    now exists p.
  - now rewrite Hcons.
  - rewrite map_map. change (fun x => text (chunk_of x)) with (join blank_line).
    rewrite join_concat, Hcat; [reflexivity|].
    eapply Forall_impl, Hok. now intros g [Hne _].
Qed.

(** Two paragraphs or more that exceed the size are cut in two chunks at
    least. *)
Lemma paragraph_chunks_two (full_text : str) :
  (2 <= length (paragraphs full_text))%nat ->
  total (paragraphs full_text) > max_chunk_size ->
  (2 <= length (paragraph_chunks max_chunk_size full_text))%nat.
Proof.
  intros Hlen Htot.
  destruct (paragraph_chunks_groups full_text) as (groups & -> & Hok & Hcat).
  rewrite length_map. destruct groups as [|g [|g2 groups]]; simpl; try lia.
  - simpl in Hcat. rewrite <- Hcat in Hlen. simpl in Hlen. lia.
  - simpl in Hcat. rewrite app_nil_r in Hcat. subst g.
    inversion Hok as [|? ? [_ [Hb|[p Hp]]] _]; subst; [lia|].
    rewrite Hp in Hlen. simpl in Hlen. lia.
Qed.

(** While the running size stays within the size, nothing is flushed. *)
Lemma paragraph_loop_within (raw : list str) :
  forall st,
    current_size st + total (filter truthy (map strip raw)) <= max_chunk_size ->
    fold_left (paragraph_step max_chunk_size) raw st
    = {| chunks := chunks st;
         current_chunk := current_chunk st ++ filter truthy (map strip raw);
         current_size :=
           current_size st + total (filter truthy (map strip raw)) |}.
Proof.
  induction raw as [|p raw IH]; intros st H; cbn [fold_left map filter] in *.
  - simpl. rewrite app_nil_r, Z.add_0_r. now destruct st.
  - destruct (truthy (strip p)) eqn:Hp.
    + assert (Hlen : 0 <= total (filter truthy (map strip raw))).
      { generalize (filter truthy (map strip raw)). intros l.
        induction l; simpl; unfold len in *; lia. }
      cbn [total fold_right] in H. fold (total (filter truthy (map strip raw))) in H.
      rewrite paragraph_step_keep; [|exact Hp|].
      * rewrite IH; cbn [chunks current_chunk current_size].
        -- rewrite <- app_assoc. cbn [total fold_right app].
           fold (total (filter truthy (map strip raw))).
           f_equal. lia.
        -- lia.
      * apply andb_false_iff. left. rewrite Z.gtb_ltb. apply Z.ltb_ge. lia.
    + rewrite paragraph_step_blank by exact Hp. now apply IH.
Qed.

Lemma paragraph_chunks_single (full_text : str) :
  paragraphs full_text <> [] ->
  total (paragraphs full_text) <= max_chunk_size ->
  paragraph_chunks max_chunk_size full_text
  = [chunk_of (paragraphs full_text)].
Proof.
  intros Hne Htot. unfold paragraph_chunks.
  rewrite paragraph_loop_within by (simpl; exact Htot).
  cbn [chunks current_chunk current_size app]. fold (paragraphs full_text).
  destruct (paragraphs full_text); [easy | reflexivity].
Qed.

End ParagraphChunker.

(** ** The word fallback *)

Section WordFallback.

Import App.
Local Open Scope Z_scope.

Variable max_chunk_size : Z.
Hypothesis max_nonneg : 0 <= max_chunk_size.

Variable words : list str.

Lemma word_split_ok (chunk_words : list str) :
  words_running_ok max_chunk_size words chunk_words ->
  word_chunk_ok max_chunk_size words (word_split chunk_words).
Proof.
  intros [H|(w & -> & Hw)]; split; try reflexivity.
  - now left.
  - right. exact Hw.
Qed.

Lemma word_loop_ok (ws : list str) :
  forall st,
    incl ws words ->
    Forall (word_chunk_ok max_chunk_size words) (fst st) ->
    words_running_ok max_chunk_size words (snd st) ->
    let st' := fold_left (word_step max_chunk_size) ws st in
    Forall (word_chunk_ok max_chunk_size words) (fst st')
    /\ words_running_ok max_chunk_size words (snd st').
Proof.
  induction ws as [|w ws IH]; intros [chunks0 cw] Hin Hc Hr; cbn [fold_left].
  - now split.
  - apply IH.
    + intros x Hx. apply Hin. now right.
    + unfold word_step.
      destruct (len (join space (cw ++ [w])) >? max_chunk_size); simpl;
        [|exact Hc].
      apply Forall_app. split; [exact Hc|]. constructor; [|constructor].
      rewrite removelast_last. now apply word_split_ok.
    + unfold word_step.
      destruct (len (join space (cw ++ [w])) >? max_chunk_size) eqn:E; simpl.
      * right. exists w. split; [reflexivity|]. apply Hin. now left.
      * left. rewrite Z.gtb_ltb in E. now apply Z.ltb_ge in E.
Qed.

Lemma word_chunks_ok (full_text : str) :
  incl (split_ws full_text) words ->
  Forall (word_chunk_ok max_chunk_size words)
         (word_chunks max_chunk_size full_text).
Proof.
  intros Hin. unfold word_chunks.
  pose proof (word_loop_ok (split_ws full_text) ([], []) Hin) as H.
  cbn [fst snd] in H. specialize (H (Forall_nil _)).
  destruct H as [Hc Hr].
  { left. simpl. exact max_nonneg. }
  destruct (fold_left _ _ _) as [chunks0 cw]. cbn [fst snd] in *.
  destruct (nonempty cw); [|exact Hc].
  apply Forall_app. split; [exact Hc|]. constructor; [|constructor].
  now apply word_split_ok.
Qed.

End WordFallback.

(** ** The chunker [create_llm_chunks] *)

Section Chunker.

Import App.
Local Open Scope Z_scope.

(** C1, as the code has it. When the markdown text has two trimmed non-empty
    paragraphs or more and their lengths sum to more than 2000,
    [create_llm_chunks] with size 2000 gives two chunks or more; the size of
    each chunk is the sum of the lengths of its paragraphs; and the texts of
    the chunks, joined and split back on the blank line, give the paragraphs
    of the text in order, none lost, none moved. *)
Theorem chunks_reconstruct_paragraphs (doc : Document) (md : str) :
  markdown doc 0 = Val md ->
  (2 <= length (paragraphs md))%nat ->
  total (paragraphs md) > 2000 ->
  let result := create_llm_chunks doc 2000 in
  (2 <= length result)%nat
  /\ Forall (fun c => size c = total (constituents c)
                      /\ type c = lit "paragraph_group") result
  /\ concat (map constituents result) = paragraphs md
  /\ split blank_line (join blank_line (map text result)) = paragraphs md.
Proof.
  intros Hmd Hlen Htot result. unfold result, create_llm_chunks.
  rewrite Hmd.
  destruct (paragraph_chunks_partition 2000 md) as (Hall & Hcat & Hjoin).
  repeat split.
  - now apply paragraph_chunks_two.
  - eapply Forall_impl, Hall. intros c (Hs & Ht & _). now split.
  - exact Hcat.
  - rewrite Hjoin. apply split_join_clean; [|apply paragraphs_clean].
    destruct (paragraphs md); [simpl in Hlen; lia | discriminate].
Qed.

Lemma chunks_reconstruct_paragraphs_witness :
  let doc := markdown_doc two_paragraphs in
  let result := create_llm_chunks doc 2000 in
  ((2 <= length (paragraphs two_paragraphs))%nat
   /\ total (paragraphs two_paragraphs) > 2000)
  /\ (2 <= length result)%nat
  /\ Forall (fun c => size c = total (constituents c)
                      /\ type c = lit "paragraph_group") result
  /\ concat (map constituents result) = paragraphs two_paragraphs
  /\ split blank_line (join blank_line (map text result))
     = paragraphs two_paragraphs.
Proof.
  assert (Hlen : (2 <= length (paragraphs two_paragraphs))%nat)
    by (vm_compute; apply le_n).
  assert (Htot : total (paragraphs two_paragraphs) > 2000)
    by (vm_compute; reflexivity).
  split; [now split|].
  exact (chunks_reconstruct_paragraphs (markdown_doc two_paragraphs)
           two_paragraphs eq_refl Hlen Htot).
Defined.

(** C1, as stated, fails: one paragraph of 2001 characters crosses the
    threshold and is kept in one chunk. *)
Lemma one_long_paragraph_one_chunk :
  markdown (markdown_doc long_paragraph) 0 = Val long_paragraph
  /\ total (paragraphs long_paragraph) > 2000
  /\ length (create_llm_chunks (markdown_doc long_paragraph) 2000) = 1%nat.
Proof.
  split; [reflexivity|].
  split; vm_compute; reflexivity.
Qed.

(** C2, as the code has it. A chunk returned with size 2000 is within 2000
    characters, unless it is a single paragraph of the markdown text (or, in
    the word fallback, a single word of it) that is longer on its own; its
    size is then the length of that paragraph or word. *)
Theorem chunk_size_bound (doc : Document) (c : Chunk) :
  In c (create_llm_chunks doc 2000) ->
  size c <= 2000
  \/ (size c = len (text c)
      /\ ((exists md, markdown doc 0 = Val md /\ In (text c) (paragraphs md))
          \/ (exists md, markdown doc 1 = Val md
                         /\ In (text c) (split_ws md)))).
Proof.
  unfold create_llm_chunks.
  destruct (markdown doc 0) as [md|e0].
  - intros Hc.
    destruct (paragraph_chunks_partition 2000 md) as (Hall & Hcat & _).
    rewrite Forall_forall in Hall.
    destruct (Hall c Hc) as (Hs & _ & _ & [Hb|(p & Hp & Ht)]); [now left|].
    right. split.
    + rewrite Hs, Hp, Ht. simpl. lia.
    + left. exists md. split; [reflexivity|].
      rewrite <- Hcat, Ht. apply in_concat. exists [p]. split; [|now left].
      rewrite <- Hp. now apply in_map.
  - destruct (markdown doc 1) as [md|e1].
    + intros Hc.
      assert (H : Forall (word_chunk_ok 2000 (split_ws md))
                         (word_chunks 2000 md)).
      { apply word_chunks_ok; [lia | apply incl_refl]. }
      rewrite Forall_forall in H. destruct (H c Hc) as [Hs [Hb|Hw]].
      * now left.
      * right. split; [exact Hs|]. right. now exists md.
    + intros [<-|[]]. left. simpl. lia.
Qed.

Lemma chunk_size_bound_witness :
  let doc := markdown_doc two_paragraphs in
  let c := chunk_of [lit "tail"] in
  In c (create_llm_chunks doc 2000)
  /\ (size c <= 2000
      \/ (size c = len (text c)
          /\ ((exists md, markdown doc 0 = Val md
                          /\ In (text c) (paragraphs md))
              \/ (exists md, markdown doc 1 = Val md
                             /\ In (text c) (split_ws md))))).
Proof.
  assert (H : In (chunk_of [lit "tail"])
                 (create_llm_chunks (markdown_doc two_paragraphs) 2000)).
  { vm_compute. right. left. reflexivity. }
  split; [exact H|].
  exact (chunk_size_bound (markdown_doc two_paragraphs)
           (chunk_of [lit "tail"]) H).
Defined.

(** C2, as stated, fails: the chunk of one paragraph of 2001 characters has
    size 2001. *)
Lemma long_paragraph_chunk_exceeds :
  exists c,
    create_llm_chunks (markdown_doc long_paragraph) 2000 = [c]
    /\ size c = 2001
    /\ ~ size c <= 2000.
Proof.
  eexists. split; [vm_compute; reflexivity|].
  split; [reflexivity | simpl; lia].
Qed.

(** C7. When the markdown text has a non-empty paragraph and the lengths of
    its trimmed non-empty paragraphs sum to less than the maximal size,
    [create_llm_chunks] gives one chunk, of type [paragraph_group], whose
    text is the paragraphs joined with the blank line. *)
Theorem small_text_single_chunk (doc : Document) (max_chunk_size : Z)
  (md : str) :
  markdown doc 0 = Val md ->
  paragraphs md <> [] ->
  total (paragraphs md) < max_chunk_size ->
  exists c,
    create_llm_chunks doc max_chunk_size = [c]
    /\ type c = lit "paragraph_group"
    /\ text c = join blank_line (paragraphs md)
    /\ size c = total (paragraphs md).
Proof.
  intros Hmd Hne Htot. unfold create_llm_chunks. rewrite Hmd.
  rewrite paragraph_chunks_single by (assumption || lia).
  exists (chunk_of (paragraphs md)). repeat split.
Qed.

Lemma small_text_single_chunk_witness :
  let md := lit " Intro " ++ blank_line ++ blank_line ++ lit "Body" in
  (paragraphs md = [lit "Intro"; lit "Body"] /\ total (paragraphs md) < 2000)
  /\ exists c,
       create_llm_chunks (markdown_doc md) 2000 = [c]
       /\ type c = lit "paragraph_group"
       /\ text c = join blank_line (paragraphs md)
       /\ size c = total (paragraphs md).
Proof.
  split; [split; reflexivity|].
  apply (small_text_single_chunk
           (markdown_doc (lit " Intro " ++ blank_line ++ blank_line
                          ++ lit "Body")) 2000).
  - reflexivity.
  - discriminate.
  - reflexivity.
Defined.

End Chunker.

(** ** The outline: sections and tables *)

Section OutlineContent.

Import App.
Local Open Scope Z_scope.

Lemma get_heading_level_range (label : str) :
  1 <= get_heading_level label <= 4.
Proof.
  unfold get_heading_level.
  repeat match goal with
         | |- context [if ?b then _ else _] => destruct b
         end; lia.
Qed.

Lemma heading_step_run (text_item : TextItem) (s : Structure) :
  heading_step text_item s
  = (if is_heading text_item then append_section (section_of text_item) s
     else s, Val tt).
Proof.
  unfold heading_step, is_heading, section_of, label_of.
  destruct (item_label text_item) as [label|]; [|reflexivity].
  destruct (truthy label); [|reflexivity].
  cbn [andb]. now destruct (_ || _).
Qed.

Lemma heading_loop (items : list TextItem) :
  forall s,
    for_each items heading_step s
    = ({| title := title s;
          sections := sections s ++ map section_of (filter is_heading items);
          tables := tables s;
          key_elements := key_elements s |}, Val tt).
Proof.
  induction items as [|it items IH]; intros s; cbn [for_each filter map].
  - unfold ret. rewrite app_nil_r. now destruct s.
  - unfold bind. rewrite heading_step_run, IH.
    destruct (is_heading it); [|reflexivity].
    cbn [title sections tables key_elements append_section map].
    now rewrite <- app_assoc.
Qed.

Lemma table_step_run (i : Z) (table : Table) (s : Structure) :
  table_step (i, table) s
  = match export_to_markdown table with
    | Absent => (append_table (table_entry i (table_str table)) s, Val tt)
    | Present (Val md) => (append_table (table_entry i md) s, Val tt)
    | Faulty e => (s, Raise e)
    | Present (Raise e) => (s, Raise e)
    end.
Proof.
  unfold table_step, bind, lift, ret, modify, table_entry.
  destruct (export_to_markdown table) as [|e|[md|e]]; reflexivity.
Qed.

Lemma table_loop (tbls : list Table) :
  forall k s,
    exists r,
      for_each (combine (map Z.of_nat (seq k (length tbls))) tbls) table_step s
      = ({| title := title s;
            sections := sections s;
            tables := tables s ++ table_entries (Z.of_nat k) tbls;
            key_elements := key_elements s |}, r).
Proof.
  induction tbls as [|table tbls IH]; intros k s;
    cbn [length seq map combine for_each table_entries].
  - exists (Val tt). unfold ret. rewrite app_nil_r. now destruct s.
  - unfold bind. rewrite table_step_run. unfold exports_markdown.
    assert (step : forall md,
               exists r,
                 for_each
                   (combine (map Z.of_nat (seq (S k) (length tbls))) tbls)
                   table_step (append_table (table_entry (Z.of_nat k) md) s)
                 = ({| title := title s;
                       sections := sections s;
                       tables := tables s
                                 ++ table_entry (Z.of_nat k) md
                                    :: table_entries (Z.of_nat k + 1) tbls;
                       key_elements := key_elements s |}, r)).
    { intros md.
      destruct (IH (S k) (append_table (table_entry (Z.of_nat k) md) s))
        as [r ->].
      exists r. cbn [title sections tables key_elements append_table].
      rewrite <- app_assoc. cbn [app].
      replace (Z.of_nat (S k)) with (Z.of_nat k + 1) by lia. reflexivity. }
    destruct (export_to_markdown table) as [|e|[md|e]].
    + apply step.
    + rewrite app_nil_r. destruct s. eexists. reflexivity.
    + apply step.
    + rewrite app_nil_r. destruct s. eexists. reflexivity.
Qed.

(** The outline, field by field, for every document. *)
Lemma outline_fields (doc : Document) :
  let outline := extract_document_structure doc in
  sections outline
  = match doc_texts doc with
    | Present items => map section_of (filter is_heading items)
    | _ => []
    end
  /\ tables outline
     = match doc_texts doc, doc_tables doc with
       | Faulty _, _ => []
       | _, Present tbls => table_entries 0 tbls
       | _, _ => []
       end.
Proof.
  unfold extract_document_structure, run_swallow, structure_body, bind, lift.
  destruct (doc_texts doc) as [|e|items]; cbn [hasattr getattr];
    try (split; reflexivity).
  - unfold ret. destruct (doc_tables doc) as [|e|tbls]; cbn [hasattr getattr];
      try (split; reflexivity).
    unfold enumerate.
    match goal with
    | |- context [for_each _ table_step ?s] =>
      destruct (table_loop tbls 0%nat s) as [r ->]
    end.
    split; reflexivity.
  - rewrite heading_loop.
    destruct (doc_tables doc) as [|e|tbls]; cbn [hasattr getattr];
      try (split; reflexivity).
    unfold enumerate.
    match goal with
    | |- context [for_each _ table_step ?s] =>
      destruct (table_loop tbls 0%nat s) as [r ->]
    end.
    split; reflexivity.
Qed.

(** X1. The sections of the outline are the heading items of the document,
    in document order, with their trimmed text and their label; this holds
    whatever happens afterwards in the table loop. *)
Theorem outline_sections (doc : Document) (items : list TextItem) :
  doc_texts doc = Present items ->
  sections (extract_document_structure doc)
  = map section_of (filter is_heading items).
Proof.
  intros H. rewrite (proj1 (outline_fields doc)). now rewrite H.
Qed.

Lemma outline_sections_witness :
  doc_texts report_doc
  = Present [heading_item "section_heading-h3" " Scope ";
             heading_item "paragraph" "Body text";
             heading_item "TITLE" "Report"]
  /\ sections (extract_document_structure report_doc)
     = [{| level := 3; section_text := lit "Scope";
           section_type := lit "section_heading-h3" |};
        {| level := 1; section_text := lit "Report";
           section_type := lit "TITLE" |}].
Proof.
  split; [reflexivity|].
  exact (outline_sections report_doc _ eq_refl).
Defined.

(** X2. Every section of every outline has a level between 1 and 4. *)
Theorem outline_levels_in_range (doc : Document) :
  Forall (fun s => 1 <= level s <= 4)
         (sections (extract_document_structure doc)).
Proof.
  rewrite (proj1 (outline_fields doc)).
  destruct (doc_texts doc) as [|e|items]; try constructor.
  apply Forall_forall. intros s Hs.
  apply in_map_iff in Hs as (it & <- & _). apply get_heading_level_range.
Qed.

(** X3. When the text items could be probed and the tables are present, the
    table entries of the outline are those of the tables in front of the
    first one whose markdown export raises: the entries built before the
    exception are kept, the later tables are left out. *)
Theorem outline_tables_until_failure (doc : Document) (tbls : list Table) :
  (forall e, doc_texts doc <> Faulty e) ->
  doc_tables doc = Present tbls ->
  tables (extract_document_structure doc) = table_entries 0 tbls.
Proof.
  intros Ht Hb. rewrite (proj2 (outline_fields doc)), Hb.
  destruct (doc_texts doc) as [|e|items]; try reflexivity.
  now destruct (Ht e).
Qed.

Lemma outline_tables_until_failure_witness :
  tables (extract_document_structure report_doc)
  = [table_entry 0 (lit "|a|")].
Proof.
  apply (outline_tables_until_failure report_doc
           [plain_table "|a|"; broken_table; plain_table "|b|"]).
  - discriminate.
  - reflexivity.
Defined.

Lemma table_entries_indices (tbls : list Table) :
  forall k,
    map index (table_entries (Z.of_nat k) tbls)
    = map Z.of_nat (seq k (length (table_entries (Z.of_nat k) tbls))).
Proof.
  induction tbls as [|table tbls IH]; intros k; cbn [table_entries];
    [reflexivity|].
  destruct (exports_markdown table); [|reflexivity].
  cbn [map length seq index table_entry]. f_equal.
  replace (Z.of_nat k + 1) with (Z.of_nat (S k)) by lia. apply IH.
Qed.

Lemma table_entries_described (tbls : list Table) :
  forall i,
    Forall (fun t => description t
                     = lit "Table " ++ str_of_int (index t + 1)
                       ++ lit " from document")
           (table_entries i tbls).
Proof.
  induction tbls as [|table tbls IH]; intros i; cbn [table_entries];
    [constructor|].
  destruct (exports_markdown table); constructor; [reflexivity | apply IH].
Qed.

Lemma table_entries_length (tbls : list Table) :
  forall i, (length (table_entries i tbls) <= length tbls)%nat.
Proof.
  induction tbls as [|table tbls IH]; intros i; cbn [table_entries length];
    [lia|].
  destruct (exports_markdown table); cbn [length]; [|lia].
  specialize (IH (i + 1)). lia.
Qed.

(** X4. In every outline the table entries are numbered 0, 1, 2, ... without
    a gap, each is described as "Table <index+1> from document", and there
    are never more entries than tables. *)
Theorem outline_tables_numbered (doc : Document) :
  let entries := tables (extract_document_structure doc) in
  map index entries = map Z.of_nat (seq 0 (length entries))
  /\ Forall (fun t => description t
                      = lit "Table " ++ str_of_int (index t + 1)
                        ++ lit " from document") entries
  /\ (forall tbls, doc_tables doc = Present tbls ->
                   (length entries <= length tbls)%nat).
Proof.
  cbv zeta. rewrite (proj2 (outline_fields doc)).
  destruct (doc_texts doc) as [|e|items];
    destruct (doc_tables doc) as [|e'|tbls];
    repeat split; try constructor; try discriminate;
      try (intros; simpl; lia);
      try apply (table_entries_indices tbls 0%nat);
      try apply table_entries_described;
      intros tbls' H; injection H as <-; apply table_entries_length.
Qed.

(** X5. The two flags never raise: [has_tables] (and [has_images]) is true
    exactly when the collection is present and not empty, and false when
    the attribute is missing or its access raises. *)
Theorem flags_of_collections (doc : Document) :
  has_tables doc
  = Val (match doc_tables doc with Present (_ :: _) => true | _ => false end)
  /\ has_images doc
     = Val (match doc_pictures doc with
            | Present (_ :: _) => true
            | _ => false
            end).
Proof.
  unfold has_tables, has_images. split.
  - destruct (doc_tables doc) as [|e|[|t l]]; reflexivity.
  - destruct (doc_pictures doc) as [|e|[|t l]]; reflexivity.
Qed.

End OutlineContent.

(** ** The two level functions *)

Section Levels.

Import App DoclingProcessor.
Local Open Scope Z_scope.

(** X6. The level function of the handler and the one of the processor give
    the same level to every label that contains one of "title", "h1", "h2",
    "h3", "h4" in lower case; they differ only in the default (2 and 1). *)
Theorem level_functions_agree (label : str) :
  contains (lit "title") (lower label)
  || contains (lit "h1") (lower label)
  || contains (lit "h2") (lower label)
  || contains (lit "h3") (lower label)
  || contains (lit "h4") (lower label) = true ->
  _get_header_level label = get_heading_level label
  /\ 1 <= get_heading_level label <= 4.
Proof.
  unfold _get_header_level, get_heading_level.
  destruct (contains (lit "title") (lower label)),
           (contains (lit "h1") (lower label)),
           (contains (lit "h2") (lower label)),
           (contains (lit "h3") (lower label)),
           (contains (lit "h4") (lower label));
    cbn; intros H; try discriminate; split; (reflexivity || lia).
Qed.

Lemma level_functions_agree_witness :
  _get_header_level (lit "Heading-H4") = get_heading_level (lit "Heading-H4")
  /\ 1 <= get_heading_level (lit "Heading-H4") <= 4.
Proof. apply level_functions_agree. reflexivity. Defined.

(** X7. The first match wins: a label that contains "h3" in any letter
    case, and none of "title", "h1", "h2" in lower case, has level 3 for
    both level functions, also when it contains "h4". *)
Theorem h3_label_has_level_3 (pre w post : str) :
  any_case w (lit "h3") ->
  contains (lit "title") (lower (pre ++ w ++ post)) = false ->
  contains (lit "h1") (lower (pre ++ w ++ post)) = false ->
  contains (lit "h2") (lower (pre ++ w ++ post)) = false ->
  get_heading_level (pre ++ w ++ post) = 3
  /\ DoclingProcessor._get_header_level (pre ++ w ++ post) = 3.
Proof.
  intros Hw Ht H1 H2.
  assert (H3 : contains (lit "h3") (lower (pre ++ w ++ post)) = true).
  { rewrite !lower_app, (any_case_lower w "h3"); auto.
    apply contains_spec. now exists (lower pre), (lower post). }
  unfold get_heading_level, DoclingProcessor._get_header_level.
  rewrite Ht, H1, H2, H3. split; reflexivity.
Qed.

Lemma h3_label_has_level_3_witness :
  any_case (lit "H3") (lit "h3")
  /\ get_heading_level (lit "heading-" ++ lit "H3" ++ lit "-h4") = 3
  /\ DoclingProcessor._get_header_level
       (lit "heading-" ++ lit "H3" ++ lit "-h4") = 3.
Proof.
  assert (H : any_case (lit "H3") (lit "h3")).
  { repeat constructor; (now left) || (now right). }
  split; [exact H|].
  apply (h3_label_has_level_3 (lit "heading-") (lit "H3") (lit "-h4") H);
    reflexivity.
Defined.

End Levels.

(** ** The paragraph chunker: what it keeps and what it never does *)

Section ChunkerMore.

Import App.
Local Open Scope Z_scope.

Lemma clean_positive (p : str) : clean p -> 1 <= len p.
Proof.
  intros [Hne _]. destruct p; [easy|]. unfold len. simpl length. lia.
Qed.

Lemma total_nonneg (g : list str) : 0 <= total g.
Proof. induction g; simpl; unfold len in *; lia. Qed.

Lemma total_concat (gs : list (list str)) :
  total (concat gs) = fold_right (fun g n => total g + n) 0 gs.
Proof.
  induction gs as [|g gs IH]; [reflexivity|].
  cbn [concat fold_right]. now rewrite total_app, IH.
Qed.

Lemma constituents_clean (max_chunk_size : Z) (full_text : str) (c : Chunk) :
  In c (paragraph_chunks max_chunk_size full_text) ->
  Forall clean (constituents c).
Proof.
  intros Hc.
  destruct (paragraph_chunks_partition max_chunk_size full_text)
    as (_ & Hcat & _).
  pose proof (paragraphs_clean full_text) as Hcl.
  rewrite <- Hcat in Hcl. apply Forall_concat in Hcl.
  rewrite Forall_forall in Hcl. apply Hcl. now apply in_map.
Qed.

(** X8. On the paragraph path no chunk is empty: every chunk has a
    non-empty text and a size of 1 at least. *)
Theorem no_empty_paragraph_chunk (doc : Document) (max_chunk_size : Z)
  (md : str) (c : Chunk) :
  markdown doc 0 = Val md ->
  In c (create_llm_chunks doc max_chunk_size) ->
  text c <> [] /\ 1 <= size c.
Proof.
  intros Hmd. unfold create_llm_chunks. rewrite Hmd. intros Hc.
  pose proof (constituents_clean max_chunk_size md c Hc) as Hcl.
  destruct (paragraph_chunks_partition max_chunk_size md) as (Hall & _ & _).
  rewrite Forall_forall in Hall.
  destruct (Hall c Hc) as (Hs & _ & Hne & _).
  destruct (constituents c) as [|p g] eqn:E; [easy|].
  inversion Hcl as [|? ? Hp Hg]; subst. split.
  - intros Ht. unfold constituents in E. rewrite Ht in E.
    injection E as <- _. now destruct Hp.
  - rewrite Hs. simpl.
    pose proof (clean_positive p Hp). pose proof (total_nonneg g). lia.
Qed.

Lemma no_empty_paragraph_chunk_witness :
  let c := chunk_of [lit "tail"] in
  In c (create_llm_chunks (markdown_doc two_paragraphs) 2000)
  /\ text c <> [] /\ 1 <= size c.
Proof.
  assert (H : In (chunk_of [lit "tail"])
                 (create_llm_chunks (markdown_doc two_paragraphs) 2000)).
  { vm_compute. right. left. reflexivity. }
  split; [exact H|].
  exact (no_empty_paragraph_chunk (markdown_doc two_paragraphs) 2000
           two_paragraphs (chunk_of [lit "tail"]) eq_refl H).
Defined.

(** X9. On the paragraph path there is no chunk exactly when the text has
    no non-empty paragraph (an empty or blank text). *)
Theorem no_chunk_iff_no_paragraph (doc : Document) (max_chunk_size : Z)
  (md : str) :
  markdown doc 0 = Val md ->
  (create_llm_chunks doc max_chunk_size = [] <-> paragraphs md = []).
Proof.
  intros Hmd. unfold create_llm_chunks. rewrite Hmd.
  destruct (paragraph_chunks_groups max_chunk_size md)
    as (groups & -> & Hok & Hcat).
  rewrite <- Hcat. split.
  - intros H. apply map_eq_nil in H. now subst groups.
  - intros H. destruct groups as [|g groups]; [reflexivity|].
    inversion Hok as [|? ? [Hg _] _]; subst.
    simpl in H. apply app_eq_nil in H as [-> _]. now destruct Hg.
Qed.

Lemma no_chunk_iff_no_paragraph_witness :
  let md := lit "  " ++ blank_line ++ lit " " in
  paragraphs md = []
  /\ create_llm_chunks (markdown_doc md) 2000 = [].
Proof.
  split; [reflexivity|].
  apply (no_chunk_iff_no_paragraph
           (markdown_doc (lit "  " ++ blank_line ++ lit " ")) 2000
           (lit "  " ++ blank_line ++ lit " ") eq_refl).
  reflexivity.
Defined.

(** X10. On the paragraph path the recorded sizes of the chunks add up to
    the sum of the lengths of the paragraphs of the text: no character of a
    paragraph is counted twice or left out. *)
Theorem sizes_add_up (doc : Document) (max_chunk_size : Z) (md : str) :
  markdown doc 0 = Val md ->
  sizes_sum (create_llm_chunks doc max_chunk_size) = total (paragraphs md).
Proof.
  intros Hmd. unfold create_llm_chunks. rewrite Hmd.
  destruct (paragraph_chunks_groups max_chunk_size md)
    as (groups & -> & _ & <-).
  rewrite total_concat. clear Hmd.
  induction groups as [|g groups IH]; [reflexivity|].
  cbn [map sizes_sum fold_right] in *. unfold sizes_sum in IH.
  now rewrite IH.
Qed.

Lemma sizes_add_up_witness :
  sizes_sum (create_llm_chunks (markdown_doc two_paragraphs) 2000) = 2005.
Proof.
  rewrite (sizes_add_up (markdown_doc two_paragraphs) 2000 two_paragraphs
             eq_refl).
  vm_compute. reflexivity.
Defined.

Lemma greedy_prefix (max_chunk_size : Z) (gs : list (list str))
  (g : list str) :
  greedy max_chunk_size (gs ++ [g]) -> greedy max_chunk_size gs.
Proof.
  induction gs as [|g1 gs IH]; [easy|].
  cbn [app greedy]. intros [H1 H2]. split; [|now apply IH].
  destruct gs as [|g2 gs]; [easy | exact H1].
Qed.

(** The loop closes a group only in front of a paragraph that does not
    fit. *)
Lemma paragraph_loop_greedy (max_chunk_size : Z) (raw : list str) :
  forall st,
    current_size st = total (current_chunk st) ->
    let st' := fold_left (paragraph_step max_chunk_size) raw st in
    exists gs,
      chunks st' = chunks st ++ map chunk_of gs
      /\ concat gs ++ current_chunk st'
         = current_chunk st ++ filter truthy (map strip raw)
      /\ current_size st' = total (current_chunk st')
      /\ greedy max_chunk_size (gs ++ [current_chunk st'])
      /\ (current_chunk st <> [] ->
          hd [] (hd [] (gs ++ [current_chunk st']))
          = hd [] (current_chunk st))
      /\ (current_chunk st' = [] -> gs = []).
Proof.
  induction raw as [|p raw IH]; intros st Hsize; cbn [fold_left].
  - exists []. simpl. rewrite !app_nil_r. repeat split; auto.
  - destruct (truthy (strip p)) eqn:Hp.
    2:{ rewrite paragraph_step_blank by exact Hp.
        cbn [map filter]. rewrite Hp. apply IH, Hsize. }
    cbn [map filter]. rewrite Hp.
    destruct ((current_size st + len (strip p) >? max_chunk_size)
              && nonempty (current_chunk st)) eqn:F.
    + rewrite paragraph_step_flush by assumption.
      apply andb_true_iff in F as [Hgt Hne].
      match goal with
      | |- context [fold_left _ raw ?s] =>
        destruct (IH s) as (gs & Hc & Hcat & Hsz & Hgr & Hhd & Hnil)
      end.
      { simpl. lia. }
      cbn [chunks current_chunk current_size] in *.
      exists (current_chunk st :: gs). repeat split.
      * rewrite Hc, <- app_assoc. cbn [map app]. unfold chunk_of at 1.
        now rewrite Hsize.
      * cbn [concat]. rewrite <- app_assoc, Hcat. reflexivity.
      * exact Hsz.
      * specialize (Hhd ltac:(discriminate)). cbn [hd] in Hhd.
        destruct (gs ++ [current_chunk (fold_left _ raw _)]) as [|g2 rest]
          eqn:E; [now destruct gs|].
        cbn [hd] in Hhd. rewrite Hhd, <- Hsize.
        rewrite Z.gtb_ltb in Hgt. apply Z.ltb_lt in Hgt. lia.
      * exact Hgr.
      * intros H. pose proof (Hnil H) as Hgs. subst gs.
        specialize (Hhd ltac:(discriminate)). rewrite H in Hhd.
        simpl in Hhd. rewrite <- Hhd in Hp. discriminate.
    + rewrite paragraph_step_keep by assumption.
      match goal with
      | |- context [fold_left _ raw ?s] =>
        destruct (IH s) as (gs & Hc & Hcat & Hsz & Hgr & Hhd & Hnil)
      end.
      { cbn [current_size current_chunk].
        rewrite total_app, total_single. lia. }
      cbn [chunks current_chunk current_size] in *.
      exists gs. repeat split; try assumption.
      * rewrite Hcat, <- app_assoc. reflexivity.
      * intros Hne. rewrite Hhd.
        -- destruct (current_chunk st); [easy | reflexivity].
        -- now destruct (current_chunk st).
Qed.

(** X11. On the paragraph path the chunks are filled greedily: the chunks
    are the groups of a partition of the paragraphs, and the size of a chunk
    plus the length of the first paragraph of the next chunk always exceeds
    the maximal size. *)
Theorem chunks_are_greedy (doc : Document) (max_chunk_size : Z) (md : str) :
  markdown doc 0 = Val md ->
  exists groups,
    create_llm_chunks doc max_chunk_size = map chunk_of groups
    /\ concat groups = paragraphs md
    /\ greedy max_chunk_size groups.
Proof.
  intros Hmd. unfold create_llm_chunks, paragraph_chunks. rewrite Hmd.
  match goal with
  | |- context [fold_left _ ?raw ?s] =>
    destruct (paragraph_loop_greedy max_chunk_size raw s)
      as (gs & Hc & Hcat & Hsz & Hgr & _ & Hnil)
  end.
  { reflexivity. }
  cbn [chunks current_chunk app] in *. fold (paragraphs md) in Hcat.
  destruct (nonempty _) eqn:Hne.
  - set (st' := fold_left _ _ _) in *.
    exists (gs ++ [current_chunk st']). rewrite map_app, Hc. repeat split.
    + cbn [map]. unfold chunk_of at 2. now rewrite Hsz.
    + rewrite concat_app. simpl. now rewrite app_nil_r.
    + exact Hgr.
  - exists gs. destruct (current_chunk _) eqn:E; [|discriminate].
    rewrite app_nil_r in Hcat. repeat split; try assumption.
    eapply greedy_prefix, Hgr.
Qed.

Lemma chunks_are_greedy_witness :
  exists groups,
    create_llm_chunks (markdown_doc two_paragraphs) 2000 = map chunk_of groups
    /\ concat groups = paragraphs two_paragraphs
    /\ greedy 2000 groups.
Proof.
  exact (chunks_are_greedy (markdown_doc two_paragraphs) 2000 two_paragraphs
           eq_refl).
Defined.

End ChunkerMore.

(** ** The word fallback: what it keeps *)

Section WordFallbackMore.

Import App.
Local Open Scope Z_scope.

Lemma word_loop_groups (max_chunk_size : Z) (ws : list str) :
  forall chunks0 cw,
    exists gs,
      fst (fold_left (word_step max_chunk_size) ws (chunks0, cw))
      = chunks0 ++ map word_split gs
      /\ concat gs ++ snd (fold_left (word_step max_chunk_size) ws (chunks0, cw))
         = cw ++ ws.
Proof.
  induction ws as [|w ws IH]; intros chunks0 cw; cbn [fold_left].
  - exists []. simpl. now rewrite !app_nil_r.
  - unfold word_step at 2 4.
    destruct (len (join space (cw ++ [w])) >? max_chunk_size).
    + rewrite removelast_last.
      destruct (IH (chunks0 ++ [word_split cw]) [w]) as (gs & Hc & Hcat).
      exists (cw :: gs). split.
      * rewrite Hc, <- app_assoc. reflexivity.
      * cbn [concat]. rewrite <- app_assoc, Hcat. reflexivity.
    + destruct (IH chunks0 (cw ++ [w])) as (gs & Hc & Hcat).
      exists gs. split; [exact Hc|]. rewrite Hcat, <- app_assoc. reflexivity.
Qed.

Lemma word_chunks_groups (max_chunk_size : Z) (full_text : str) :
  exists groups,
    word_chunks max_chunk_size full_text = map word_split groups
    /\ concat groups = split_ws full_text.
Proof.
  unfold word_chunks.
  destruct (word_loop_groups max_chunk_size (split_ws full_text) [] [])
    as (gs & Hc & Hcat).
  destruct (fold_left _ _ _) as [chunks0 cw]. cbn [fst snd app] in *.
  destruct cw as [|w cw]; cbn [nonempty].
  - exists gs. rewrite app_nil_r in Hcat. now split.
  - exists (gs ++ [w :: cw]). rewrite map_app, concat_app, Hc. split.
    + reflexivity.
    + simpl. now rewrite app_nil_r.
Qed.

(** A word in front of the rest of a text. *)
Lemma words_from_word (w : str) :
  Forall (fun c => isspace c = false) w ->
  forall cur rest, words_from cur (w ++ rest) = words_from (rev w ++ cur) rest.
Proof.
  induction 1 as [|c w Hc _ IH]; intros cur rest; [reflexivity|].
  cbn [app words_from]. rewrite Hc, IH. cbn [rev].
  now rewrite <- app_assoc.
Qed.

Lemma words_from_are_words (s : str) :
  forall cur,
    Forall (fun c => isspace c = false) cur ->
    Forall (fun w => w <> [] /\ Forall (fun c => isspace c = false) w)
           (words_from cur s).
Proof.
  assert (word : forall cur,
             cur <> [] -> Forall (fun c => isspace c = false) cur ->
             rev cur <> [] /\ Forall (fun c => isspace c = false) (rev cur)).
  { intros cur Hne Hcur. split.
    - intros H. apply (f_equal (@rev ascii)) in H.
      rewrite rev_involutive in H. now destruct Hne.
    - now apply Forall_rev. }
  induction s as [|c s IH]; intros cur Hcur; cbn [words_from].
  - destruct cur as [|x cur]; constructor; [|constructor].
    apply word; [discriminate | exact Hcur].
  - destruct (isspace c) eqn:Hc.
    + destruct cur as [|x cur]; [apply IH; constructor|].
      constructor; [apply word; [discriminate | exact Hcur]|].
      apply IH. constructor.
    + apply IH. now constructor.
Qed.

(** Splitting a space-joined list of words gives the words back. *)
Lemma split_ws_join (ws : list str) :
  Forall (fun w => w <> [] /\ Forall (fun c => isspace c = false) w) ws ->
  split_ws (join space ws) = ws.
Proof.
  unfold split_ws. induction 1 as [|w ws [Hne Hw] Hws IH]; [reflexivity|].
  assert (Hrev : rev w <> []).
  { intros H. apply (f_equal (@rev ascii)) in H.
    rewrite rev_involutive in H. now destruct Hne. }
  destruct ws as [|w2 ws].
  - cbn [join]. rewrite <- (app_nil_r w) at 1.
    rewrite words_from_word by exact Hw. rewrite app_nil_r.
    cbn [words_from]. destruct (rev w) eqn:E; [easy|].
    rewrite <- E, rev_involutive. reflexivity.
  - rewrite join_cons, words_from_word by exact Hw. rewrite app_nil_r.
    change (space ++ join space (w2 :: ws))
      with (" "%char :: join space (w2 :: ws)).
    cbn [words_from]. change (isspace " ") with true. cbn iota.
    destruct (rev w) eqn:E; [easy|].
    rewrite <- E, rev_involutive, IH. reflexivity.
Qed.

(** X12. In the word fallback no word is lost or moved: each chunk is of
    type [word_split], its size is the length of its text, and the words of
    the chunk texts, in order, are the words of the markdown text. *)
Theorem word_fallback_keeps_words (doc : Document) (max_chunk_size : Z)
  (e : exn) (md : str) :
  markdown doc 0 = Raise e ->
  markdown doc 1 = Val md ->
  let result := create_llm_chunks doc max_chunk_size in
  Forall (fun c => size c = len (text c) /\ type c = lit "word_split") result
  /\ concat (map (fun c => split_ws (text c)) result) = split_ws md.
Proof.
  intros H0 H1. unfold create_llm_chunks. rewrite H0, H1. cbv zeta.
  destruct (word_chunks_groups max_chunk_size md) as (groups & -> & Hcat).
  split.
  - apply Forall_forall. intros c Hc.
    apply in_map_iff in Hc as (g & <- & _). now split.
  - rewrite map_map. cbn [text word_split].
    pose proof (words_from_are_words md [] (Forall_nil _)) as Hw.
    fold (split_ws md) in Hw. rewrite <- Hcat in Hw |- *.
    apply Forall_concat in Hw. f_equal.
    rewrite <- (map_id groups) at 2. apply map_ext_in. intros g Hg.
    rewrite Forall_forall in Hw. apply split_ws_join, Hw, Hg.
Qed.

Lemma word_fallback_keeps_words_witness :
  let doc := flaky_doc (lit "alpha  beta gamma") in
  let result := create_llm_chunks doc 10 in
  map text result = [lit "alpha beta"; lit "gamma"]
  /\ Forall (fun c => size c = len (text c) /\ type c = lit "word_split")
            result
  /\ concat (map (fun c => split_ws (text c)) result)
     = split_ws (lit "alpha  beta gamma").
Proof.
  split; [reflexivity|].
  exact (word_fallback_keeps_words (flaky_doc (lit "alpha  beta gamma")) 10
           AttributeError (lit "alpha  beta gamma") eq_refl eq_refl).
Defined.

(** X13. In the word fallback a first word longer than the maximal size
    makes the first chunk an empty one: text "", size 0. *)
Theorem oversize_first_word_gives_empty_chunk (doc : Document)
  (max_chunk_size : Z) (e : exn) (md w : str) (ws : list str) :
  markdown doc 0 = Raise e ->
  markdown doc 1 = Val md ->
  split_ws md = w :: ws ->
  len w > max_chunk_size ->
  exists rest,
    create_llm_chunks doc max_chunk_size
    = {| text := []; size := 0; type := lit "word_split" |} :: rest.
Proof.
  intros H0 H1 Hw Hlen. unfold create_llm_chunks, word_chunks.
  rewrite H0, H1, Hw. cbn [fold_left]. unfold word_step at 2.
  cbn [app join]. rewrite (proj2 (Z.gtb_gt _ _)) by lia. cbn [removelast app].
  destruct (word_loop_groups max_chunk_size ws [word_split []] [w])
    as (gs & Hc & _).
  destruct (fold_left _ _ _) as [chunks0 cw]. cbn [fst] in Hc. subst chunks0.
  destruct (nonempty cw); eexists; cbn [app]; reflexivity.
Qed.

Lemma oversize_first_word_gives_empty_chunk_witness :
  map text (create_llm_chunks (flaky_doc (lit "incomprehensible no")) 5)
  = [[]; lit "incomprehensible"; lit "no"]
  /\ exists rest,
       create_llm_chunks (flaky_doc (lit "incomprehensible no")) 5
       = {| text := []; size := 0; type := lit "word_split" |} :: rest.
Proof.
  split; [reflexivity|].
  apply (oversize_first_word_gives_empty_chunk
           (flaky_doc (lit "incomprehensible no")) 5 AttributeError
           (lit "incomprehensible no") (lit "incomprehensible") [lit "no"]);
    reflexivity.
Defined.

(** X14. The type of the chunks tells the path taken: all the chunks are
    paragraph groups when the first export returns, word splits when only
    the second export returns, and the single error chunk when both
    raise. *)
Theorem chunk_types_tell_path (doc : Document) (max_chunk_size : Z)
  (c : Chunk) :
  In c (create_llm_chunks doc max_chunk_size) -> type c = path_type doc.
Proof.
  unfold create_llm_chunks, path_type.
  destruct (markdown doc 0) as [md|e0].
  - intros Hc.
    destruct (paragraph_chunks_partition max_chunk_size md) as (Hall & _).
    rewrite Forall_forall in Hall. apply (Hall c Hc).
  - destruct (markdown doc 1) as [md|e1].
    + destruct (word_chunks_groups max_chunk_size md) as (groups & -> & _).
      intros Hc. apply in_map_iff in Hc as (g & <- & _). reflexivity.
    + intros [<-|[]]. reflexivity.
Qed.

Lemma chunk_types_tell_path_witness :
  let doc := flaky_doc (lit "alpha  beta gamma") in
  In (word_split [lit "gamma"]) (create_llm_chunks doc 10)
  /\ type (word_split [lit "gamma"]) = path_type doc.
Proof.
  assert (H : In (word_split [lit "gamma"])
                 (create_llm_chunks (flaky_doc (lit "alpha  beta gamma")) 10)).
  { right. left. reflexivity. }
  split; [exact H|].
  exact (chunk_types_tell_path (flaky_doc (lit "alpha  beta gamma")) 10
           (word_split [lit "gamma"]) H).
Defined.

End WordFallbackMore.

(** ** The [/extract] endpoint: the answers *)

Section EndpointMore.

Import App.
Local Open Scope Z_scope.

(** X15. A failed callback POST is not an error of the request: the handler
    answers as if no callback had been asked for. *)
Theorem callback_failure_falls_back (file : UploadFile) (api_key : str)
  (url rid : str) (w : World) (e : exn) :
  truthy url = true -> truthy rid = true ->
  (forall payload, post w url payload = Raise e) ->
  extract_document file api_key (Some url) (Some rid) w
  = extract_document file api_key None None w.
Proof.
  intros Hu Hr Hpost. unfold extract_document, convert_and_transform.
  destruct (negb _); [reflexivity|]. f_equal.
  destruct (read file) as [bytes|e1]; [|reflexivity]. cbn [exc_bind].
  destruct (write_temp w bytes) as [path|e2]; [|reflexivity]. cbn [exc_bind].
  f_equal.
  destruct (convert w path) as [doc|e3]; [|reflexivity]. cbn [exc_bind].
  destruct (extraction_content doc) as [[md content]|e4]; [|reflexivity].
  cbn [exc_bind]. unfold callback_target. rewrite Hu, Hr. cbn [andb].
  now rewrite Hpost.
Qed.

Lemma callback_failure_falls_back_witness :
  let w := {| write_temp := fun _ => Val (lit "/tmp/t.pdf");
              convert := fun _ => Val report_doc;
              post := fun _ _ => Raise corrupt_pdf;
              unlink := fun _ => Val tt |} in
  extract_document pdf_upload (lit "key") (Some (lit "http://cb"))
    (Some (lit "r1")) w
  = extract_document pdf_upload (lit "key") None None w.
Proof.
  apply (callback_failure_falls_back pdf_upload (lit "key")
           (lit "http://cb") (lit "r1") _ corrupt_pdf); reflexivity.
Defined.

(** X16. The callback is used only when both [callback_url] and
    [resource_id] are given and not empty: when one of them is missing or is
    the empty string, the handler answers as without callback and the
    callback POST plays no part. *)
Theorem callback_needs_both (file : UploadFile) (api_key : str)
  (callback_url resource_id : option str) (w : World) :
  callback_url = None \/ callback_url = Some []
  \/ resource_id = None \/ resource_id = Some [] ->
  extract_document file api_key callback_url resource_id w
  = extract_document file api_key None None w.
Proof.
  intros H.
  assert (E : callback_target callback_url resource_id = None).
  { unfold callback_target.
    destruct H as [H|[H|[H|H]]]; subst; try reflexivity.
    - now destruct resource_id.
    - now destruct callback_url.
    - destruct callback_url as [url|]; [|reflexivity].
      cbn [truthy]. now rewrite andb_false_r. }
  unfold extract_document, convert_and_transform. now rewrite E.
Qed.

Lemma callback_needs_both_witness :
  extract_document pdf_upload (lit "key") (Some (lit "http://cb"))
    (Some []) failing_converter
  = extract_document pdf_upload (lit "key") None None failing_converter.
Proof.
  apply (callback_needs_both pdf_upload (lit "key")). right. right. now right.
Defined.

(** X17. The key is checked first: with a wrong key the endpoint answers 401
    "Invalid API key", whatever the file name and the collaborators. *)
Theorem wrong_key_is_rejected_first (API_KEY credentials : str)
  (file : UploadFile) (callback_url resource_id : option str) (w : World) :
  credentials <> API_KEY ->
  extract_endpoint API_KEY credentials file callback_url resource_id w
  = Raise (HTTPException 401 (lit "Invalid API key")).
Proof.
  intros Hne. unfold extract_endpoint, verify_api_key.
  destruct (str_eqb credentials API_KEY) eqn:E; [|reflexivity].
  apply str_eqb_eq in E. now destruct Hne.
Qed.

Lemma wrong_key_is_rejected_first_witness :
  extract_endpoint (lit "secret") (lit "guess")
    {| filename := lit "notes.txt"; read := Raise corrupt_pdf |}
    None None failing_converter
  = Raise (HTTPException 401 (lit "Invalid API key")).
Proof. apply wrong_key_is_rejected_first. discriminate. Defined.

(** X18. For a request that reaches the code of the route, that is one
    that carries bearer credentials and a file part, the answer has status
    200, 400 or 401: no exception of the processing leaves the handler. The
    status is 200 exactly when the key is right and the file name ends in
    ".pdf" in some letter case. (What the web framework answers before the
    dependency and the handler run, such as 422 for a request without a
    file part, is not part of this code.) *)
Theorem endpoint_statuses (API_KEY credentials : str) (file : UploadFile)
  (callback_url resource_id : option str) (w : World) :
  let status :=
    http_status
      (extract_endpoint API_KEY credentials file callback_url resource_id w) in
  (status = 200 \/ status = 400 \/ status = 401)
  /\ (status = 200 <->
      credentials = API_KEY
      /\ endswith (lit ".pdf") (lower (filename file)) = true).
Proof.
  cbv zeta. rewrite endpoint_status.
  destruct (str_eqb credentials API_KEY) eqn:E; cbn [negb].
  - apply str_eqb_eq in E.
    destruct (endswith (lit ".pdf") (lower (filename file))); cbn [negb].
    + split; [now left|]. now split.
    + split; [right; now left|]. split; [discriminate|]. now intros [_ H].
  - split; [right; now right|]. split; [discriminate|].
    intros [H _]. apply str_eqb_eq in H. congruence.
Qed.

(** X19. The answers to an accepted upload are of three kinds only: the
    failure body of an exception that left the processing; or, when every
    step returned, the extraction result with [success: true], or the
    acknowledgement of a callback that was delivered. *)
Theorem handler_answers (file : UploadFile) (api_key : str)
  (callback_url resource_id : option str) (w : World) :
  endswith (lit ".pdf") (lower (filename file)) = true ->
  let answer := extract_document file api_key callback_url resource_id w in
  (exists e,
      processing_raises file w e
      /\ answer = Val (failure_body (filename file) e))
  \/ (exists bytes path doc md content,
         read file = Val bytes
         /\ write_temp w bytes = Val path
         /\ convert w path = Val doc
         /\ extraction_content doc = Val (md, content)
         /\ unlink w path = Val tt
         /\ answer
            = Val (match callback_target callback_url resource_id with
                   | Some (url, rid) =>
                     match post w url (callback_payload rid md content) with
                     | Val _ => callback_ack rid
                     | Raise _ => extraction_result (filename file) content
                     end
                   | None => extraction_result (filename file) content
                   end)).
Proof.
  intros Hpdf answer.
  destruct (read file) as [bytes|e] eqn:Hr.
  2:{ left. exists e. split; [now apply raises_read|].
      apply processing_raises_failure; [exact Hpdf | now apply raises_read]. }
  destruct (write_temp w bytes) as [path|e] eqn:Ht.
  2:{ left. exists e.
      assert (H : processing_raises file w e)
        by (eapply raises_write_temp; eassumption).
      split; [exact H | now apply processing_raises_failure]. }
  destruct (unlink w path) as [[]|e] eqn:Hu.
  2:{ left. exists e.
      assert (H : processing_raises file w e)
        by (eapply raises_cleanup; eassumption).
      split; [exact H | now apply processing_raises_failure]. }
  destruct (convert w path) as [doc|e] eqn:Hc.
  2:{ left. exists e.
      assert (H : processing_raises file w e)
        by (eapply raises_convert; eassumption).
      split; [exact H | now apply processing_raises_failure]. }
  pose proof (extraction_content_outcome doc) as Ho.
  destruct (markdown doc 0) as [md|e] eqn:Hm.
  2:{ left. exists e.
      assert (H : processing_raises file w e)
        by (eapply raises_transform; eassumption).
      split; [exact H | now apply processing_raises_failure]. }
  destruct Ho as [content Ho].
  right. exists bytes, path, doc, md, content.
  repeat split; try assumption.
  unfold answer, extract_document, convert_and_transform.
  rewrite Hpdf, Hr. cbn [negb exc_bind]. rewrite Ht. cbn [exc_bind].
  rewrite Hu, Hc. cbn [try_finally exc_bind]. rewrite Ho. cbn [exc_bind].
  destruct (callback_target callback_url resource_id) as [[url rid]|];
    [|reflexivity].
  now destruct (post w url (callback_payload rid md content)).
Qed.

Lemma handler_answers_witness :
  endswith (lit ".pdf") (lower (filename pdf_upload)) = true
  /\ ((exists e,
         processing_raises pdf_upload failing_converter e
         /\ extract_document pdf_upload (lit "key") None None failing_converter
            = Val (failure_body (filename pdf_upload) e))
      \/ (exists bytes path doc md content,
             read pdf_upload = Val bytes
             /\ write_temp failing_converter bytes = Val path
             /\ convert failing_converter path = Val doc
             /\ extraction_content doc = Val (md, content)
             /\ unlink failing_converter path = Val tt
             /\ extract_document pdf_upload (lit "key") None None
                  failing_converter
                = Val (extraction_result (filename pdf_upload) content))).
Proof.
  split; [reflexivity|].
  exact (handler_answers pdf_upload (lit "key") None None failing_converter
           eq_refl).
Defined.

End EndpointMore.

(** ** The page-aware chunker: numbering, content and bounds *)

Section PageChunksMore.

Import DoclingProcessor.
Local Open Scope Z_scope.

Lemma group_chunks_length (document_id : str) (gs : list (list TextItem)) :
  forall k, length (group_chunks document_id k gs) = length gs.
Proof.
  induction gs as [|g gs IH]; intros k; cbn [group_chunks length];
    [reflexivity|]. now rewrite IH.
Qed.

Lemma group_chunks_numbered (document_id : str) (gs : list (list TextItem)) :
  forall k,
    Forall (numbered document_id)
           (combine (seq k (length gs))
                    (group_chunks document_id (Z.of_nat k) gs)).
Proof.
  induction gs as [|g gs IH]; intros k; cbn [group_chunks length seq combine];
    constructor.
  - split; [reflexivity|]. right. now left.
  - replace (Z.of_nat k + 1) with (Z.of_nat (S k)) by lia. apply IH.
Qed.

(** X20. The text chunks are numbered 0, 1, 2, ... in order: the chunk
    number [k] has the identifier "<document_id>_chunk_<k>" and the
    [chunk_index] [k] in its metadata. *)
Theorem text_chunks_numbered (document_id : str) (items : list TextItem) :
  let cs := _create_chunks (texts_doc items) document_id in
  Forall (numbered document_id) (combine (seq 0 (length cs)) cs).
Proof.
  cbv zeta.
  change (_create_chunks (texts_doc items) document_id)
    with (text_chunks document_id items []).
  destruct (text_chunks_groups document_id items) as (groups & -> & _).
  rewrite group_chunks_length. apply (group_chunks_numbered _ _ 0%nat).
Qed.

Lemma join_nonempty (sep s : str) (l : list str) :
  s <> [] -> join sep (s :: l) <> [].
Proof.
  intros Hs. destruct l as [|s2 l]; [exact Hs|].
  rewrite join_cons. destruct s; [easy | discriminate].
Qed.

(** X21. For every list of text items, the text chunks are the chunks of a
    partition of the kept items (those whose trimmed text is not empty) into
    consecutive groups: the content of a chunk is the trimmed texts of its
    group joined with a space, never empty, and the chunk carries the page
    of the last item of its group. *)
Theorem text_chunks_partition (document_id : str) (items : list TextItem) :
  exists groups,
    concat groups = filter kept items
    /\ Forall2 (fun c g =>
                  content c = join space (map stripped g)
                  /\ content c <> []
                  /\ page_number c = item_page_no (last g no_item)
                  /\ chunk_type c = Some (lit "text"))
               (_create_chunks (texts_doc items) document_id) groups.
Proof.
  change (_create_chunks (texts_doc items) document_id)
    with (text_chunks document_id items []).
  destruct (text_chunks_groups document_id items)
    as (groups & -> & Hcat & Hne & _).
  exists groups. split; [exact Hcat|].
  assert (Hkept : Forall (Forall (fun it => kept it = true)) groups).
  { apply Forall_concat. rewrite Hcat. apply Forall_forall.
    intros it Hit. now apply filter_In in Hit. }
  clear Hcat. generalize 0.
  induction groups as [|g groups IH]; intros k; cbn [group_chunks];
    constructor.
  - inversion Hne as [|? ? Hg _]; inversion Hkept as [|? ? Hk _]; subst.
    repeat split. cbn [content group_chunk text_chunk].
    destruct g as [|it g]; [easy|]. cbn [map].
    apply join_nonempty. inversion Hk as [|? ? Hit _]; subst.
    unfold kept in Hit. now apply truthy_nonempty.
  - inversion Hne; inversion Hkept; subst. now apply IH.
Qed.

Lemma len_app (a b : str) : len (a ++ b) = len a + len b.
Proof. unfold len. rewrite length_app. lia. Qed.

Lemma len_join_snoc (ws : list str) (x : str) :
  len (join space (ws ++ [x])) <= len (join space ws) + 1 + len x.
Proof.
  destruct ws as [|w ws].
  - cbn [app join]. unfold len. cbn [length]. lia.
  - rewrite join_app by discriminate. rewrite !len_app.
    change (len space) with 1. cbn [join]. lia.
Qed.

Lemma fits_nil : len (join space []) <= 1000.
Proof. vm_compute. discriminate. Qed.

Lemma bounded_single (it : TextItem) : bounded_group [it].
Proof. exact fits_nil. Qed.

Lemma bounded_snoc (cur : list TextItem) (it : TextItem) :
  len (join space (map stripped cur)) <= 1000 ->
  bounded_group (cur ++ [it]).
Proof. intros H. unfold bounded_group. now rewrite removelast_last. Qed.

Lemma bounded_content (g : list TextItem) :
  g <> [] -> bounded_group g ->
  len (join space (map stripped g))
  <= 1001 + len (stripped (last g no_item)).
Proof.
  intros Hne Hb. unfold bounded_group in Hb.
  rewrite (app_removelast_last no_item Hne) at 1.
  rewrite map_app. cbn [map].
  pose proof (len_join_snoc (map stripped (removelast g))
                (stripped (last g no_item))). lia.
Qed.

(** The loop over the text items cuts the kept items into groups and closes
    a group as soon as its joined content passes 1000 characters: all the
    items of a group but the last fit in 1000 characters. *)
Lemma text_loop_bounded (document_id : str) (items : list TextItem) :
  forall st cur,
    running st cur ->
    bounded_group cur ->
    let st' := fold_left (text_step document_id) items st in
    exists gs cur',
      chunks st' = chunks st ++ group_chunks document_id (chunk_id st) gs
      /\ chunk_id st' = chunk_id st + Z.of_nat (length gs)
      /\ running st' cur'
      /\ concat gs ++ cur' = cur ++ filter kept items
      /\ Forall (fun g => g <> [] /\ bounded_group g) gs
      /\ bounded_group cur'.
Proof.
  induction items as [|it items IH]; intros st cur Hrun Hb; cbn [fold_left].
  - exists [], cur. simpl. rewrite !app_nil_r, Z.add_0_r.
    repeat split; auto; apply Hrun.
  - destruct (kept it) eqn:Hk.
    2:{ rewrite text_step_skip by exact Hk. cbn [filter]. rewrite Hk.
        now apply IH. }
    cbn [filter]. rewrite Hk.
    destruct ((truthy_page (current_page st)
               && negb (page_eqb (item_page_no it) (current_page st))
               || (len (join space (current_chunk st)) >? 1000))
              && App.nonempty (current_chunk st)) eqn:F.
    + rewrite text_step_flush by assumption.
      destruct Hrun as [Hcur Hpage].
      assert (Hne : cur <> []).
      { apply andb_true_iff in F as [_ F]. rewrite Hcur in F.
        now destruct cur. }
      match goal with
      | |- context [fold_left _ items ?s] =>
        destruct (IH s [it]) as (gs & cur' & Hc & Hid & Hr & Hcat & Hg & Hb')
      end.
      { split; [reflexivity | intros _; reflexivity]. }
      { apply bounded_single. }
      cbn [chunks chunk_id current_chunk current_page] in *.
      exists (cur :: gs), cur'.
      split; [|split; [|split; [exact Hr|split; [|split; [|exact Hb']]]]].
      * rewrite Hc, <- app_assoc. cbn [group_chunks app].
        unfold group_chunk at 1. now rewrite <- Hcur, <- (Hpage Hne).
      * rewrite Hid. cbn [length]. lia.
      * cbn [concat]. rewrite <- app_assoc, Hcat. reflexivity.
      * constructor; [now split | exact Hg].
    + rewrite text_step_keep by assumption.
      match goal with
      | |- context [fold_left _ items ?s] =>
        destruct (IH s (cur ++ [it]))
          as (gs & cur' & Hc & Hid & Hr & Hcat & Hg & Hb')
      end.
      { destruct Hrun as [Hcur Hpage]. split; cbn [current_chunk current_page].
        - now rewrite Hcur, map_app.
        - intros _. now rewrite last_last. }
      { apply bounded_snoc. destruct Hrun as [Hcur _].
        destruct cur as [|c0 cur]; [apply fits_nil|].
        rewrite Hcur in F. cbn [map App.nonempty] in F.
        rewrite andb_true_r in F. apply orb_false_iff in F as [_ F].
        rewrite Z.gtb_ltb in F. now apply Z.ltb_ge in F. }
      cbn [chunks chunk_id current_chunk current_page] in *.
      exists gs, cur'.
      split; [exact Hc|split; [exact Hid|split; [exact Hr|]]].
      split; [|split; [exact Hg | exact Hb']].
      rewrite Hcat, <- app_assoc. reflexivity.
Qed.

Lemma text_chunks_bounded_groups (document_id : str)
  (items : list TextItem) :
  exists groups,
    text_chunks document_id items [] = group_chunks document_id 0 groups
    /\ concat groups = filter kept items
    /\ Forall (fun g => g <> [] /\ bounded_group g) groups.
Proof.
  unfold text_chunks.
  match goal with
  | |- context [fold_left _ items ?s] =>
    destruct (text_loop_bounded document_id items s [])
      as (gs & cur & Hc & Hid & [Hcur Hpage] & Hcat & Hg & Hb)
  end.
  { split; [reflexivity | easy]. }
  { apply fits_nil. }
  cbn [chunks chunk_id app] in *.
  destruct (App.nonempty _) eqn:Hne.
  - assert (Hcne : cur <> []) by (rewrite Hcur in Hne; now destruct cur).
    exists (gs ++ [cur]). repeat split.
    + rewrite group_chunks_app, Hc, Hid. unfold group_chunk.
      now rewrite <- Hcur, <- (Hpage Hcne).
    + rewrite concat_app. simpl. now rewrite app_nil_r.
    + apply Forall_app. split; [exact Hg | now repeat constructor].
  - assert (Hcnil : cur = []) by (rewrite Hcur in Hne; now destruct cur).
    subst cur. rewrite app_nil_r in Hcat.
    exists gs. now repeat split.
Qed.

Lemma table_step_appends (document_id : str) (it : Z * Table)
  (front : list DocumentChunk) :
  keeps (fun s => exists rest,
             s = front ++ rest
             /\ Forall (fun c => chunk_type c = Some (lit "table")) rest)
        (table_step document_id it).
Proof.
  destruct it as [i table]. intros s (rest & -> & Hrest).
  unfold table_step, bind, lift, ret, modify.
  destruct (export_to_html table) as [|e|[html|e]]; cbn [hasattr getattr fst];
    try (exists rest; now split);
    (eexists; split; [symmetry; apply app_assoc|];
     apply Forall_app; split; [exact Hrest|]; now repeat constructor).
Qed.

(** The table part of [_create_chunks] only appends table chunks. *)
Lemma table_part_appends (doc : Document) (document_id : str)
  (front : list DocumentChunk) :
  exists rest,
    fst (bind (lift (hasattr (doc_tables doc)))
              (fun has_tables : bool =>
                 if has_tables
                 then bind (lift (getattr (doc_tables doc)))
                           (fun tbls =>
                              for_each (enumerate tbls)
                                       (table_step document_id))
                 else ret tt) front)
    = front ++ rest
    /\ Forall (fun c => chunk_type c = Some (lit "table")) rest.
Proof.
  match goal with
  | |- exists rest, fst (?m front) = _ /\ _ =>
    assert (Hk : keeps (fun s => exists rest,
                            s = front ++ rest
                            /\ Forall (fun c => chunk_type c
                                                 = Some (lit "table")) rest) m)
  end.
  { apply keeps_bind; [apply keeps_lift|]. intros has.
    destruct has; [|apply keeps_ret].
    apply keeps_bind; [apply keeps_lift|]. intros tbls.
    apply keeps_for_each. intros it. apply table_step_appends. }
  apply (Hk front). exists []. now rewrite app_nil_r.
Qed.

Lemma create_chunks_front (doc : Document) (document_id : str) :
  exists rest,
    _create_chunks doc document_id
    = match doc_texts doc with
      | Present items => text_chunks document_id items []
      | _ => []
      end ++ rest
    /\ Forall (fun c => chunk_type c = Some (lit "table")) rest.
Proof.
  unfold _create_chunks, run_swallow, create_chunks_body.
  unfold bind at 1. unfold bind at 1.
  destruct (doc_texts doc) as [|e|items].
  - apply (table_part_appends doc document_id []).
  - exists []. now split.
  - apply (table_part_appends doc document_id
             (text_chunks document_id items [])).
Qed.

(** X22. A text chunk is closed as soon as its content passes 1000
    characters. For every list of text items, the text chunks are the chunks
    of a partition of the kept items into consecutive groups such that, in
    every group, the trimmed texts of all the items but the last, joined
    with a space, have 1000 characters at most; so the content of a chunk is
    at most 1001 characters longer than the trimmed text of the last item of
    its group. *)
Theorem text_chunk_length_bound (document_id : str) (items : list TextItem) :
  exists groups,
    concat groups = filter kept items
    /\ Forall2 (fun c g =>
                  g <> []
                  /\ content c = join space (map stripped g)
                  /\ len (join space (map stripped (removelast g))) <= 1000
                  /\ len (content c)
                     <= 1001 + len (stripped (last g no_item)))
               (_create_chunks (texts_doc items) document_id) groups.
Proof.
  change (_create_chunks (texts_doc items) document_id)
    with (text_chunks document_id items []).
  destruct (text_chunks_bounded_groups document_id items)
    as (groups & -> & Hcat & Hg).
  exists groups. split; [exact Hcat|]. clear Hcat. generalize 0.
  induction groups as [|g groups IH]; intros k; cbn [group_chunks];
    constructor.
  - inversion Hg as [|? ? [Hne Hb] _]; subst.
    split; [exact Hne|]. split; [reflexivity|]. split; [exact Hb|].
    now apply bounded_content.
  - inversion Hg; subst. now apply IH.
Qed.

(** An item of 1001 characters closes its chunk in front of the next item
    of the same page; with 1000 characters the next item is added. *)
Example long_item_is_cut :
  let long n := {| item_label := None; item_text := repeat "x"%char n;
                   item_page_no := Some 1 |} in
  map (fun c => len (content c))
      (_create_chunks (texts_doc [long 1001%nat; item (Some 1) "b"])
         (lit "doc"))
  = [1001; 1]
  /\ map (fun c => len (content c))
         (_create_chunks (texts_doc [long 1000%nat; item (Some 1) "b"])
            (lit "doc"))
     = [1002].
Proof. split; vm_compute; reflexivity. Qed.

(** X23. The text chunks survive a failing table export: whenever the text
    items are present, [_create_chunks] returns the text chunks followed by
    chunks of type "table" only, whatever the table collection is and
    whether or not an exporter raises. *)
Theorem text_chunks_are_kept (doc : Document) (document_id : str)
  (items : list TextItem) :
  doc_texts doc = Present items ->
  exists rest,
    _create_chunks doc document_id = text_chunks document_id items [] ++ rest
    /\ Forall (fun c => chunk_type c = Some (lit "table")) rest.
Proof.
  intros Ht. pose proof (create_chunks_front doc document_id) as H.
  now rewrite Ht in H.
Qed.

Lemma text_chunks_are_kept_witness :
  let doc := {| doc_texts := Present [item (Some 3%Z) "a"];
                doc_tables := Present [plain_table "<table/>"; broken_table;
                                       plain_table "<table/>"];
                doc_pictures := Absent; doc_pages := Absent;
                markdown := fun _ => Val [] |} in
  map content (_create_chunks doc (lit "doc")) = [lit "a"; lit "<table/>"]
  /\ exists rest,
       _create_chunks doc (lit "doc")
       = text_chunks (lit "doc") [item (Some 3%Z) "a"] [] ++ rest
       /\ Forall (fun c => chunk_type c = Some (lit "table")) rest.
Proof.
  split; [reflexivity|].
  apply text_chunks_are_kept. reflexivity.
Defined.

(** X24. When every kept item has a page number that is neither [None]
    nor 0, a text chunk never mixes pages: the text chunks are the chunks of
    a partition of the kept items into consecutive groups, the content of a
    chunk is the trimmed texts of the items of its group joined with a
    space, and every item of the group is on the page the chunk carries,
    which is the page of the first item of the group. *)
Theorem paged_chunks_are_single_page (document_id : str)
  (items : list TextItem) :
  Forall paged (filter kept items) ->
  exists groups,
    concat groups = filter kept items
    /\ Forall2 (fun c g =>
                  g <> []
                  /\ content c = join space (map stripped g)
                  /\ page_number c = item_page_no (hd no_item g)
                  /\ Forall (fun it => item_page_no it = page_number c) g)
               (_create_chunks (texts_doc items) document_id) groups.
Proof.
  intros Hpg.
  change (_create_chunks (texts_doc items) document_id)
    with (text_chunks document_id items []).
  destruct (text_chunks_groups document_id items)
    as (groups & -> & Hcat & Hne & Hsp).
  exists groups. split; [exact Hcat|].
  specialize (Hsp Hpg). clear Hcat Hpg. generalize 0.
  induction groups as [|g groups IH]; intros k; cbn [group_chunks];
    constructor.
  - inversion Hne as [|? ? Hg _]; inversion Hsp as [|? ? Hs _]; subst.
    assert (Hp : page_number (group_chunk document_id k g)
                 = item_page_no (hd no_item g)).
    { simpl. now apply same_page_last. }
    split; [exact Hg|]. split; [reflexivity|]. split; [exact Hp|].
    apply Forall_forall. intros it Hit. rewrite Hp. now apply Hs.
  - inversion Hne; inversion Hsp; subst. now apply IH.
Qed.

Lemma paged_chunks_are_single_page_witness :
  let items := [item (Some 2%Z) "a"; item (Some 2%Z) " "; item (Some 2%Z) "b";
                item (Some 5%Z) "c"]
  in
  (Forall paged (filter kept items)
   /\ map (fun c => (content c, page_number c))
          (_create_chunks (texts_doc items) (lit "doc"))
      = [(lit "a b", Some 2%Z); (lit "c", Some 5%Z)])
  /\ exists groups,
       concat groups = filter kept items
       /\ Forall2 (fun c g =>
                     g <> []
                     /\ content c = join space (map stripped g)
                     /\ page_number c = item_page_no (hd no_item g)
                     /\ Forall (fun it => item_page_no it = page_number c) g)
                  (_create_chunks (texts_doc items) (lit "doc")) groups.
Proof.
  assert (H : Forall paged
                (filter kept [item (Some 2%Z) "a"; item (Some 2%Z) " ";
                              item (Some 2%Z) "b"; item (Some 5%Z) "c"]))
    by (repeat constructor).
  split; [split; [exact H | reflexivity]|].
  exact (paged_chunks_are_single_page (lit "doc") _ H).
Defined.

Lemma table_chunks_numbered (document_id : str) (tbls : list Table) :
  forall k,
    Forall (table_numbered document_id)
           (combine (seq k (length tbls))
              (combine tbls
                 (map (table_chunk_of document_id)
                      (combine (map Z.of_nat (seq k (length tbls))) tbls)))).
Proof.
  induction tbls as [|t tbls IH]; intros k; cbn [length seq map combine];
    constructor.
  - repeat split.
  - apply IH.
Qed.

(** X25. When the text items and the tables are present and no HTML export
    raises, the text chunks are followed by one chunk per table, in order:
    the chunk of the table number [k] has the identifier
    "<document_id>_table_<k>", the HTML of the table (or its rendering when
    it has no exporter) as content, the page of the table and the type
    "table". *)
Theorem table_chunks_follow (doc : Document) (document_id : str)
  (items : list TextItem) (tbls : list Table) :
  doc_texts doc = Present items ->
  doc_tables doc = Present tbls ->
  Forall (fun table => exports_html table <> None) tbls ->
  exists tcs,
    _create_chunks doc document_id = text_chunks document_id items [] ++ tcs
    /\ length tcs = length tbls
    /\ Forall (table_numbered document_id)
              (combine (seq 0 (length tbls)) (combine tbls tcs)).
Proof.
  intros Ht Hb Hx.
  exists (map (table_chunk_of document_id) (enumerate tbls)). split.
  - now apply tables_follow_texts.
  - split.
    + unfold enumerate.
      rewrite length_map, length_combine, length_map, length_seq. lia.
    + apply (table_chunks_numbered document_id tbls 0%nat).
Qed.

Lemma table_chunks_follow_witness :
  let doc := {| doc_texts := Present [item (Some 3%Z) "a"];
                doc_tables := Present [plain_table "<t1/>";
                                       plain_table "<t2/>"];
                doc_pictures := Absent; doc_pages := Absent;
                markdown := fun _ => Val [] |} in
  map (fun c => (id c, content c)) (_create_chunks doc (lit "d"))
  = [(lit "d_chunk_0", lit "a"); (lit "d_table_0", lit "<t1/>");
     (lit "d_table_1", lit "<t2/>")]
  /\ exists tcs,
       _create_chunks doc (lit "d")
       = text_chunks (lit "d") [item (Some 3%Z) "a"] [] ++ tcs
       /\ length tcs = 2%nat
       /\ Forall (table_numbered (lit "d"))
                 (combine (seq 0 2)
                    (combine [plain_table "<t1/>"; plain_table "<t2/>"] tcs)).
Proof.
  split; [reflexivity|].
  apply (table_chunks_follow _ (lit "d") [item (Some 3%Z) "a"]
           [plain_table "<t1/>"; plain_table "<t2/>"]); try reflexivity.
  repeat constructor; discriminate.
Defined.

End PageChunksMore.
